(** * html-to-image: the structural cloner and the image embedder

    A shallow embedding of [clone-node.ts] (cloneNode and its helpers) and
    of [embed-images.ts] (embedProp, embedBackground, embedImageNode).

    The DOM is a finite tree; every clone the program builds is a fresh
    node, so trees are plain values.  Promises are computations over a
    world that carries a clock and the chronological list of the calls
    made to the collaborators ([then] and [await] are the monadic bind).
    The collaborators that live outside these two files (the resource
    resolver, the CSS rewriter, computed styles, selector matching, image
    loading, DOMMatrix parsing and printing) are the fields of [Env]. *)

From Stdlib Require Import Ascii String DecimalString QArith Qcanon.
From stdpp Require Import base option list strings gmap numbers.

Set Warnings "-register-all,-clear-no-such-hyp".

Open Scope string_scope.
Open Scope list_scope.
Open Scope Qc_scope.

(** ** Numbers

    JavaScript numbers that the code only copies, compares with zero,
    negates and feeds to DOMMatrix are modelled as exact rationals (every
    finite double is one); the rounding of a sum is not modelled. *)

Definition qz (z : Z) : Qc := Q2Qc (inject_Z z).

(** ** The DOM data model *)

Module Dom.

(** The interfaces the code tests with [isInstanceOfElement]. *)
Inductive Interface :=
| HTMLCanvasElement
| HTMLVideoElement
| HTMLIFrameElement
| HTMLTextAreaElement
| HTMLInputElement
| HTMLSelectElement
| HTMLImageElement
| HTMLSlotElement
| HTMLOtherElement
| SVGImageElement
| SVGOtherElement
| MathMLElement.

#[global] Instance Interface_eq_dec : EqDecision Interface.
Proof. solve_decision. Defined.

(** [isInstanceOfElement(node, HTMLElement)]. *)
Definition isHTMLElement (i : Interface) : bool :=
  match i with
  | SVGImageElement | SVGOtherElement | MathMLElement => false
  | _ => true
  end.

(** An inline style declaration block: property name to (value, priority). *)
Abbreviation Style := (gmap string (string * string)).

(** What the settled promise of [embedImageNode] is wired to. *)
Inductive Handler := NoHandler | NativeHandler | PromiseResolve | PromiseReject.

#[global] Instance Handler_eq_dec : EqDecision Handler.
Proof. solve_decision. Defined.

(** The own state of an element, without the nodes it points to. *)
Record ElementData := mkElementData {
  tagName : string;
  interface : Interface;
  attributes : list (string * string);
  style : option Style;
  (* form controls *)
  value : string;
  (* scrolling *)
  scrollTop : Qc;
  scrollLeft : Qc;
  (* canvas.toDataURL(); [None] when the canvas is tainted and the call
     throws a SecurityError *)
  canvasData : option string;
  (* video *)
  currentSrc : string;
  poster : string;
  (* images *)
  src : string;
  srcset : string;
  hrefBaseVal : string;
  loading : string;
  onload : Handler;
  onerror : Handler;
  decode : Handler
}.

(** [iframe.contentDocument]: the access throws, or yields null, or
    yields a document whose body may be missing. *)
Inductive Frame (N : Type) :=
| FrameThrows
| FrameNull
| FrameDocument (body : option N).
Arguments FrameThrows {N}.
Arguments FrameNull {N}.
Arguments FrameDocument {N} body.

Inductive Node :=
| NonElement (data : string)
| Element (d : ElementData)
          (childNodes : list Node)
          (shadowRoot : option (list Node))
          (contentDocument : Frame Node)
          (assignedNodes : list Node).

(** Modelled from the spec: [isSupportedElement] of util.ts, which is not
    part of the sources at hand; the spec's data model has elements and
    opaque non-elements (text, comments). *)
Definition isSupportedElement (n : Node) : bool :=
  match n with Element _ _ _ _ _ => true | NonElement _ => false end.

Definition data (n : Node) : option ElementData :=
  match n with Element d _ _ _ _ => Some d | NonElement _ => None end.

Definition childNodes (n : Node) : list Node :=
  match n with Element _ cs _ _ _ => cs | NonElement _ => [] end.

Definition shadowRoot (n : Node) : option (list Node) :=
  match n with Element _ _ sr _ _ => sr | NonElement _ => None end.

Definition contentDocument (n : Node) : Frame Node :=
  match n with Element _ _ _ f _ => f | NonElement _ => FrameNull end.

Definition assignedNodes (n : Node) : list Node :=
  match n with Element _ _ _ _ an => an | NonElement _ => [] end.

Definition interfaceOf (n : Node) : option Interface := interface <$> data n.

(** [isInstanceOfElement(node, I)] of util.ts, for the interfaces [I] the
    two files test: the node's interface is kept as a tag. *)
Definition isInstanceOf (n : Node) (i : Interface) : bool :=
  bool_decide (interfaceOf n = Some i).

Definition isInstanceOfHTMLElement (n : Node) : bool :=
  from_option isHTMLElement false (interfaceOf n).

(** [node.children]: undefined on a non-element, otherwise the collection
    of the child nodes that are elements (an object, hence truthy even
    when it is empty). *)
Definition children (n : Node) : option (list Node) :=
  match n with
  | Element _ cs _ _ _ => Some (filter (fun c => isSupportedElement c = true) cs)
  | NonElement _ => None
  end.

Definition withData (f : ElementData -> ElementData) (n : Node) : Node :=
  match n with
  | Element d cs sr fr an => Element (f d) cs sr fr an
  | NonElement s => NonElement s
  end.

Definition withChildNodes (f : list Node -> list Node) (n : Node) : Node :=
  match n with
  | Element d cs sr fr an => Element d (f cs) sr fr an
  | NonElement s => NonElement s
  end.

(** [parent.appendChild(child)] for a freshly created [child]. *)
Definition appendChild (parent child : Node) : Node :=
  withChildNodes (fun cs => cs ++ [child]) parent.

(** *** Attributes *)

Fixpoint assoc_get (k : string) (l : list (string * string)) : option string :=
  match l with
  | [] => None
  | (k', v) :: l' => if String.eqb k k' then Some v else assoc_get k l'
  end.

Fixpoint assoc_set (k v : string) (l : list (string * string))
  : list (string * string) :=
  match l with
  | [] => [(k, v)]
  | (k', v') :: l' =>
      if String.eqb k k' then (k, v) :: l' else (k', v') :: assoc_set k v l'
  end.

Definition getAttribute (k : string) (n : Node) : option string :=
  data n ≫= fun d => assoc_get k (attributes d).

Definition hasAttribute (k : string) (n : Node) : bool :=
  bool_decide (is_Some (getAttribute k n)).

Definition setData_attributes (a : list (string * string)) (d : ElementData) :=
  mkElementData (tagName d) (interface d) a (style d) (value d)
    (scrollTop d) (scrollLeft d) (canvasData d) (currentSrc d) (poster d)
    (src d) (srcset d) (hrefBaseVal d) (loading d)
    (onload d) (onerror d) (decode d).

Definition setData_style (s : option Style) (d : ElementData) :=
  mkElementData (tagName d) (interface d) (attributes d) s (value d)
    (scrollTop d) (scrollLeft d) (canvasData d) (currentSrc d) (poster d)
    (src d) (srcset d) (hrefBaseVal d) (loading d)
    (onload d) (onerror d) (decode d).

Definition setAttribute (k v : string) (n : Node) : Node :=
  withData (fun d => setData_attributes (assoc_set k v (attributes d)) d) n.

(** *** Inline styles *)

Definition getPropertyValue (name : string) (s : Style) : string :=
  from_option fst "" (s !! name).

Definition getPropertyPriority (name : string) (s : Style) : string :=
  from_option snd "" (s !! name).

(** [style.setProperty(name, v, priority)], on the declaration block
    taken as the record of what was written to it, property by property.
    The CSSOM also parses what it is given: it drops a value it cannot
    parse, lets a shorthand reset its longhands and reads a value back
    in its own serialisation.  That is the platform's part and is not
    modelled: reading a block back gives what was written. *)
Definition setProperty (name v priority : string) (s : Style) : Style :=
  <[name := (v, priority)]> s.

Definition styleOf (n : Node) : option Style := data n ≫= style.

(** [node.style.<prop> = v], silently ignored when there is no style. *)
Definition setStyle (name v priority : string) (n : Node) : Node :=
  withData (fun d => setData_style (setProperty name v priority <$> style d) d) n.

(** *** [cloneNode(false)]

    The copy keeps the element's own markup state (tag, interface,
    attributes, inline style and what reflects attributes) and none of
    the nodes it pointed to; it is not rendered, so it is not scrolled
    and a canvas copy is blank. *)
Definition shallowData (d : ElementData) : ElementData :=
  mkElementData (tagName d) (interface d) (attributes d) (style d) (value d)
    0 0 (Some "data:,") (currentSrc d) (poster d)
    (src d) (srcset d) (hrefBaseVal d) (loading d)
    NoHandler NoHandler (decode d).

Definition shallowClone (n : Node) : Node :=
  match n with
  | Element d _ _ _ _ => Element (shallowData d) [] None FrameNull []
  | NonElement s => NonElement s
  end.

(** *** Tree traversal: [querySelectorAll] and [querySelector] *)

Fixpoint descendants (n : Node) : list Node :=
  match n with
  | NonElement _ => []
  | Element _ cs _ _ _ =>
      (fix go (l : list Node) : list Node :=
         match l with
         | [] => []
         | c :: l' => c :: descendants c ++ go l'
         end) cs
  end.

Definition subtree (n : Node) : list Node := n :: descendants n.

End Dom.

Import Dom.

(** ** Promises

    A promise is a computation over the world: it advances the clock by
    the latency of whatever it awaits and appends the calls it makes to
    the chronological event list.  It settles with a value, rejects with
    a reason, or stays pending for ever. *)

Module Async.

Inductive Event :=
| EvFilter (n : Node)
| EvResource (url mime : string)
| EvCreateImage (url : string)
| EvRewriteCss (v : string)
| EvSetProperty (name v priority : string)
| EvImageLoad (url : string).

Record World := mkWorld { clock : nat; events : list Event }.

Inductive Outcome (A : Type) :=
| Done (a : A)
| Rejected (reason : string)
| Pending.
Arguments Done {A} a.
Arguments Rejected {A} reason.
Arguments Pending {A}.

Definition Promise (A : Type) : Type := World -> Outcome A * World.

Definition resolve {A} (a : A) : Promise A := fun w => (Done a, w).

Definition reject {A} (reason : string) : Promise A :=
  fun w => (Rejected reason, w).

Definition never {A} : Promise A := fun w => (Pending, w).

Definition andThen {A B} (m : Promise A) (k : A -> Promise B) : Promise B :=
  fun w =>
    match m w with
    | (Done a, w') => k a w'
    | (Rejected r, w') => (Rejected r, w')
    | (Pending, w') => (Pending, w')
    end.

#[global] Instance Promise_ret : MRet Promise := @resolve.
#[global] Instance Promise_bind : MBind Promise :=
  fun A B k m => andThen m k.

(** [try { body } catch { handler }]: a rejection is handled, a promise
    that never settles is not. *)
Definition tryCatch {A} (body : Promise A) (handler : Promise A) : Promise A :=
  fun w =>
    match body w with
    | (Rejected _, w') => handler w'
    | r => r
    end.

Definition emit (e : Event) : Promise unit :=
  fun w => (Done (), mkWorld (clock w) (events w ++ [e])).

(** A call to an asynchronous collaborator: it is recorded, takes the
    collaborator's latency, and resolves or rejects as it decides. *)
Definition external {A} (e : Event) (reason : string)
    (answer : nat * option A) : Promise A :=
  fun w =>
    let w' := mkWorld (clock w + answer.1) (events w ++ [e]) in
    match answer.2 with
    | Some a => (Done a, w')
    | None => (Rejected reason, w')
    end.

(** A synchronous step that may throw. *)
Definition orThrow {A} (reason : string) (o : option A) : Promise A :=
  match o with Some a => resolve a | None => reject reason end.

End Async.

Import Async.

(** ** DOMMatrix

    The sixteen entries of the 4x4 matrix; [a b c d e f] alias
    [m11 m12 m21 m22 m41 m42]. *)

Module Matrix.

Record DOMMatrix := mkMatrix {
  m11 : Qc; m12 : Qc; m13 : Qc; m14 : Qc;
  m21 : Qc; m22 : Qc; m23 : Qc; m24 : Qc;
  m31 : Qc; m32 : Qc; m33 : Qc; m34 : Qc;
  m41 : Qc; m42 : Qc; m43 : Qc; m44 : Qc
}.

Definition identity : DOMMatrix :=
  mkMatrix 1 0 0 0  0 1 0 0  0 0 1 0  0 0 0 1.

(** [matrix.a = a; matrix.b = b; matrix.c = c; matrix.d = d]. *)
Definition set_abcd (a b c d : Qc) (m : DOMMatrix) : DOMMatrix :=
  mkMatrix a b (m13 m) (m14 m)
           c d (m23 m) (m24 m)
           (m31 m) (m32 m) (m33 m) (m34 m)
           (m41 m) (m42 m) (m43 m) (m44 m).

(** [matrix.translateSelf(tx, ty)]: post-multiplication by the
    translation by [(tx, ty, 0)]. *)
Definition translateSelf (tx ty : Qc) (m : DOMMatrix) : DOMMatrix :=
  mkMatrix (m11 m) (m12 m) (m13 m) (m14 m)
           (m21 m) (m22 m) (m23 m) (m24 m)
           (m31 m) (m32 m) (m33 m) (m34 m)
           (m41 m + (tx * m11 m + ty * m21 m))
           (m42 m + (tx * m12 m + ty * m22 m))
           (m43 m + (tx * m13 m + ty * m23 m))
           (m44 m + (tx * m14 m + ty * m24 m)).

End Matrix.

Import Matrix.

(** ** The collaborators *)

Record ComputedStyle := mkComputedStyle {
  cssText : string;
  transformOrigin : string;
  declarations : Style
}.

(** What the browser signals after an image source was swapped. *)
Inductive LoadSignal := LoadFired | ErrorFired | NothingFired.

Record Env := mkEnv {
  (* dataurl.ts, mimes.ts, util.ts, embed-resources.ts, clone-pseudos.ts *)
  isDataUrl : string -> bool;
  getMimeType : string -> string;
  resourceToDataURL : string -> string -> nat * option string;
  createImage : string -> nat * option Node;
  embedResources : string -> nat * option string;
  getStyleProperties : Node -> list string;
  clonePseudoElements : Node -> Node -> Node;
  (* the platform *)
  document : list Node;
  validSelector : string -> bool;
  selectorMatches : string -> Node -> bool;
  getComputedStyle : Node -> ComputedStyle;
  parseCssText : string -> Style;
  parseInnerHTML : string -> list Node;
  floorMinusTenth : string -> string;
  captureFrame : Node -> option string;
  parseMatrix : string -> option DOMMatrix;
  printMatrix : DOMMatrix -> string;
  imageLoad : Node -> nat * LoadSignal
}.

(** The two options the cloner reads; they are kept in a name space of
    their own because [filter] is also the list function. *)
Module Options.
Record t := mk {
  filter : option (Node -> bool);
  patchScroll : bool
}.
End Options.
Abbreviation Options := Options.t.

(** ** JavaScript strings *)

Module Js.

(** A string is falsy exactly when it is empty. *)
Definition truthy (s : string) : bool := negb (String.eqb s "").

Definition upper_ascii (c : ascii) : ascii :=
  let n := nat_of_ascii c in
  if ((97 <=? n) && (n <=? 122))%nat then ascii_of_nat (n - 32) else c.

(** [s.toUpperCase()], on the ASCII letters tag names are made of. *)
Fixpoint toUpperCase (s : string) : string :=
  match s with
  | EmptyString => EmptyString
  | String c s' => String (upper_ascii c) (toUpperCase s')
  end.

Fixpoint startsWith (s pre : string) {struct pre} : bool :=
  match pre, s with
  | EmptyString, _ => true
  | String a pre', String b s' => Ascii.eqb a b && startsWith s' pre'
  | String _ _, EmptyString => false
  end.

Definition endsWith (s suffix : string) : bool :=
  let n := String.length s in
  let k := String.length suffix in
  (k <=? n)%nat && String.eqb (substring (n - k) k s) suffix.

End Js.

Import Js.

(** ** clone-node.ts *)

Module Clone.

Section WithCollaborators.

Context (E : Env) (options : Options).

(** The recursive reference to [cloneNode(node, options, isRoot)]. *)
Variable cloneNode_rec : Node -> bool -> Promise (option Node).

Definition createImageOf (url : string) : Promise Node :=
  external (EvCreateImage url) "ImageLoadError" (createImage E url).

Definition resourceToDataURLOf (url contentType : string) : Promise string :=
  external (EvResource url contentType) "ResourceFetchError"
    (resourceToDataURL E url contentType).

(** [canvas.toDataURL()] throws a SecurityError on a tainted canvas. *)
Definition toDataURL (canvas : Node) : Promise string :=
  orThrow "SecurityError" (data canvas ≫= canvasData).

Definition cloneCanvasElement (canvas : Node) : Promise Node :=
  dataURL ← toDataURL canvas;
  if String.eqb dataURL "data:," then resolve (shallowClone canvas)
  else createImageOf dataURL.

Definition cloneVideoElement (video : Node) : Promise Node :=
  if truthy (from_option currentSrc "" (data video)) then
    (* the frame is drawn on a fresh canvas, which a video from another
       origin taints: [toDataURL] then throws *)
    dataURL ← orThrow "SecurityError" (captureFrame E video);
    createImageOf dataURL
  else
    let poster := from_option poster "" (data video) in
    let contentType := getMimeType E poster in
    dataURL ← resourceToDataURLOf poster contentType;
    createImageOf dataURL.

(** [iframe?.contentDocument?.body]; reading [contentDocument] may throw. *)
Definition contentBody (iframe : Node) : Promise (option Node) :=
  match contentDocument iframe with
  | FrameThrows => reject "SecurityError"
  | FrameNull => resolve None
  | FrameDocument body => resolve body
  end.

(** The result of the [try] block is [Some r] when it returned [r] and
    [None] when control fell through to the statement after it. *)
Definition cloneIFrameElement (iframe : Node) : Promise Node :=
  returned ← tryCatch
    (body ← contentBody iframe;
     match body with
     | Some b => r ← cloneNode_rec b true; resolve (Some r)
     | None => resolve None
     end)
    (resolve None);
  match returned with
  | Some (Some clonedBody) => resolve clonedBody
  | Some None => reject "TypeError"
  | None => resolve (shallowClone iframe)
  end.

Definition cloneSingleElement (node : Node) : Promise Node :=
  if isInstanceOf node HTMLCanvasElement then cloneCanvasElement node
  else if isInstanceOf node HTMLVideoElement then cloneVideoElement node
  else if isInstanceOf node HTMLIFrameElement then cloneIFrameElement node
  else resolve (shallowClone node).

Definition isSlotElement (node : Node) : bool :=
  String.eqb (toUpperCase (from_option tagName "" (data node))) "SLOT".

(** The child list [cloneChildren] walks.  [assignedNodes] is a method of
    slot elements only. *)
Definition resolvedChildren (nativeNode : Node) : Promise (list Node) :=
  if isSlotElement nativeNode && isInstanceOf nativeNode HTMLSlotElement then
    resolve (assignedNodes nativeNode)
  else if isInstanceOf nativeNode HTMLIFrameElement then
    body ← contentBody nativeNode;
    match body with
    | Some b => resolve (childNodes b)
    | None => resolve (from_option id (childNodes nativeNode) (shadowRoot nativeNode))
    end
  else
    resolve (from_option id (childNodes nativeNode) (shadowRoot nativeNode)).

(** One step of the reduction: wait for what came before, clone the
    child, append the clone unless it is null. *)
Definition cloneChildStep (deferred : Promise Node) (child : Node) : Promise Node :=
  clonedNode ← deferred;
  clonedChild ← cloneNode_rec child false;
  resolve (match clonedChild with
           | Some c => appendChild clonedNode c
           | None => clonedNode
           end).

Definition cloneChildren (nativeNode clonedNode : Node) : Promise Node :=
  children ← resolvedChildren nativeNode;
  if (List.length children =? 0)%nat || isInstanceOf nativeNode HTMLVideoElement then
    resolve clonedNode
  else
    foldl cloneChildStep (resolve clonedNode) children.

(** The value [cloneCSSStyle] passes to [setProperty] for one property
    name.  The reduced font size, [Math.floor(parseFloat(s)) - 0.1] as
    the template literal prints it, goes through the parsing, the
    arithmetic and the printing of doubles, none of which is modelled:
    it is the platform's [floorMinusTenth], from the string to the
    string, and nothing is stated about its value. *)
Definition copiedValue (nativeNode clonedNode : Node) (sourceStyle : ComputedStyle)
    (name : string) : string :=
  let value := getPropertyValue name (declarations sourceStyle) in
  let value :=
    if String.eqb name "font-size" && endsWith value "px" then
      String.append
        (floorMinusTenth E (substring 0 (String.length value - 2) value)) "px"
    else value in
  let value :=
    if isInstanceOf nativeNode HTMLIFrameElement
       && String.eqb name "display" && String.eqb value "inline"
    then "block" else value in
  if String.eqb name "d" && truthy (default "" (getAttribute "d" clonedNode)) then
    String.append "path("
      (String.append (default "" (getAttribute "d" clonedNode)) ")")
  else value.

Definition cloneCSSStyle (nativeNode clonedNode : Node) : Node :=
  match styleOf clonedNode with
  | None => clonedNode
  | Some _ =>
      let sourceStyle := getComputedStyle E nativeNode in
      if truthy (cssText sourceStyle) then
        let clonedNode :=
          withData (setData_style (Some (parseCssText E (cssText sourceStyle))))
            clonedNode in
        setStyle "transform-origin" (transformOrigin sourceStyle) "" clonedNode
      else
        foldl (fun cloned name =>
                 setStyle name
                   (copiedValue nativeNode clonedNode sourceStyle name)
                   (getPropertyPriority name (declarations sourceStyle))
                   cloned)
          clonedNode (getStyleProperties E nativeNode)
  end.

Definition cloneInputValue (nativeNode clonedNode : Node) : Node :=
  let nativeValue := from_option value "" (data nativeNode) in
  let clonedNode :=
    if isInstanceOf nativeNode HTMLTextAreaElement then
      withChildNodes (fun _ => parseInnerHTML E nativeValue) clonedNode
    else clonedNode in
  if isInstanceOf nativeNode HTMLInputElement then
    setAttribute "value" nativeValue clonedNode
  else clonedNode.

(** The test of the [find] callback, on a member of [clonedSelect.children]. *)
Definition isSelectedOption (nativeNode child : Node) : Prop :=
  isSupportedElement child = true
  ∧ getAttribute "value" child = Some (from_option value "" (data nativeNode)).

#[global] Instance isSelectedOption_dec nativeNode child :
  Decision (isSelectedOption nativeNode child).
Proof. unfold isSelectedOption. apply _. Defined.

Definition cloneSelectValue (nativeNode clonedNode : Node) : Node :=
  if isInstanceOf nativeNode HTMLSelectElement then
    match list_find (isSelectedOption nativeNode) (childNodes clonedNode) with
    | Some (i, _) =>
        withChildNodes (alter (setAttribute "selected" "") i) clonedNode
    | None => clonedNode
    end
  else clonedNode.

(** The matrix written back for a child whose transform parsed to [matrix]. *)
Definition scrolledMatrix (nativeNode : Node) (matrix : DOMMatrix) : DOMMatrix :=
  let '(a, b, c, d) := (m11 matrix, m12 matrix, m21 matrix, m22 matrix) in
  let matrix := set_abcd 1 0 0 1 matrix in
  let matrix :=
    translateSelf (- from_option scrollLeft 0 (data nativeNode))
                  (- from_option scrollTop 0 (data nativeNode)) matrix in
  set_abcd a b c d matrix.

(** The body of the loop for one member of [clonedNode.children]; [None]
    is a thrown TypeError (no [style]) or SyntaxError (DOMMatrix). *)
Definition scrollChild (nativeNode child : Node) : option Node :=
  match children child with
  | None => Some child
  | Some _ =>
      childStyle ← styleOf child;
      matrix ← parseMatrix E (getPropertyValue "transform" childStyle);
      Some (setStyle "transform"
              (printMatrix E (scrolledMatrix nativeNode matrix)) "" child)
  end.

Definition isScrolled (nativeNode : Node) : bool :=
  negb (bool_decide (from_option scrollTop 0 (data nativeNode) = 0)
        && bool_decide (from_option scrollLeft 0 (data nativeNode) = 0)).

Definition cloneScrollPosition (nativeNode clonedNode : Node) : option Node :=
  if negb (isScrolled nativeNode) || negb (bool_decide (is_Some (children clonedNode)))
  then Some clonedNode
  else
    patched ← mapM (fun child =>
                      if isSupportedElement child
                      then scrollChild nativeNode child
                      else Some child)
                   (childNodes clonedNode);
    Some (withChildNodes (fun _ => patched) clonedNode).

Definition decorate (nativeNode clonedNode : Node) : Promise Node :=
  let clonedNode := cloneCSSStyle nativeNode clonedNode in
  if isInstanceOfHTMLElement nativeNode && isInstanceOfHTMLElement clonedNode then
    let clonedNode := cloneInputValue nativeNode clonedNode in
    let clonedNode := cloneSelectValue nativeNode clonedNode in
    let clonedNode := clonePseudoElements E nativeNode clonedNode in
    if Options.patchScroll options then
      orThrow "TypeError" (cloneScrollPosition nativeNode clonedNode)
    else resolve clonedNode
  else resolve clonedNode.

(** [clone.querySelectorAll(selector)]: the matching descendants in
    document order, for a string that parses as a selector; what a
    selector matches is the platform's [selectorMatches]. *)
Definition querySelectorAll (selector : string) (root : Node) : list Node :=
  filter (fun n => selectorMatches E selector n = true) (descendants root).

Definition querySelector (selector : string) (root : Node) : option Node :=
  head (querySelectorAll selector root).

(** [document.querySelector(selector)], again for a string that parses. *)
Definition documentQuerySelector (selector : string) : option Node :=
  head (filter (fun n => selectorMatches E selector n = true)
          (flat_map subtree (document E))).

(** The call itself: [querySelector] parses its argument first and throws
    a SyntaxError when it is not a selector; otherwise it returns what
    was [found]. *)
Definition selected {A} (selector : string) (found : A) : Promise A :=
  if validSelector E selector then resolve found else reject "SyntaxError".

(** [processedDefs[id]] on the object literal: the keys are kept in
    insertion order, which is the order [Object.values] follows. *)
Definition processed (id : string) (processedDefs : list (string * Node)) : bool :=
  bool_decide (id ∈ processedDefs.*1).

(** The clone of a definition; the root overload of [cloneNode] is
    declared non-null. *)
Definition cloneDefinition (definition : Node) : Promise Node :=
  r ← cloneNode_rec definition true;
  orThrow "TypeError" r.

(** Does the loop body clone a definition for this [use]?  The id goes
    as it is to the two [querySelector] calls, outside any [try]. *)
Definition wanted (clone : Node) (processedDefs : list (string * Node))
    (use : Node) : Promise (option (string * Node)) :=
  match getAttribute "xlink:href" use with
  | Some id =>
      if truthy id then
        exist ← selected id (querySelector id clone);
        definition ← selected id (documentQuerySelector id);
        resolve (match exist, definition with
                 | None, Some definition =>
                     if processed id processedDefs then None
                     else Some (id, definition)
                 | _, _ => None
                 end)
      else resolve None
  | None => resolve None
  end.

(** The first loop of [ensureSVGSymbols], from index [i] on. *)
Fixpoint collectDefs (clone : Node) (uses : list Node)
    (processedDefs : list (string * Node)) : Promise (list (string * Node)) :=
  match uses with
  | [] => resolve processedDefs
  | use :: rest =>
      found ← wanted clone processedDefs use;
      match found with
      | Some (id, definition) =>
          cloned ← cloneDefinition definition;
          collectDefs clone rest (processedDefs ++ [(id, cloned)])
      | None => collectDefs clone rest processedDefs
      end
  end.

Definition createElementNS (tag : string) : Node :=
  Element (mkElementData tag HTMLOtherElement [] (Some ∅) "" 0 0 (Some "data:,")
             "" "" "" "" "" "" NoHandler NoHandler NoHandler)
    [] None FrameNull [].

(** The hidden container; [defs] is built before it is attached, which
    yields the same tree as filling it after [svg.appendChild(defs)]. *)
Definition symbolContainer (nodes : list Node) : Node :=
  let ns := "http://www.w3.org/1999/xhtml" in
  let svg := createElementNS "svg" in
  let svg := setAttribute "xmlns" ns svg in
  let svg := setStyle "position" "absolute" "" svg in
  let svg := setStyle "width" "0" "" svg in
  let svg := setStyle "height" "0" "" svg in
  let svg := setStyle "overflow" "hidden" "" svg in
  let svg := setStyle "display" "none" "" svg in
  let defs := foldl appendChild (createElementNS "defs") nodes in
  appendChild svg defs.

Definition ensureSVGSymbols (clone : Node) : Promise Node :=
  let uses := querySelectorAll "use" clone in
  if (List.length uses =? 0)%nat then resolve clone
  else
    processedDefs ← collectDefs clone uses [];
    let nodes := processedDefs.*2 in
    if (List.length nodes =? 0)%nat then resolve clone
    else resolve (appendChild clone (symbolContainer nodes)).

(** Is the node dropped before anything is cloned?  The filter is
    consulted only when [isRoot] is false and a filter was given. *)
Definition excluded (node : Node) (isRoot : bool) : Promise bool :=
  if isRoot then resolve false
  else
    match Options.filter options with
    | None => resolve false
    | Some f => _ ← emit (EvFilter node); resolve (negb (f node))
    end.

Definition cloneNode_body (node : Node) (isRoot : bool) : Promise (option Node) :=
  excluded node isRoot ≫= fun dropped : bool =>
  if dropped then resolve None
  else if negb (isSupportedElement node) then resolve (Some (shallowClone node))
  else
    clonedNode ← cloneSingleElement node;
    clonedNode ← cloneChildren node clonedNode;
    clonedNode ← decorate node clonedNode;
    clonedNode ← ensureSVGSymbols clonedNode;
    resolve (Some clonedNode).

End WithCollaborators.

(** [cloneNode]: the recursion through nested documents and symbol
    definitions need not end (two definitions may reference each other),
    so it is unfolded [fuel] times; a promise that is still recursing
    after that is pending. *)
Fixpoint cloneNode (E : Env) (options : Options) (fuel : nat)
    (node : Node) (isRoot : bool) : Promise (option Node) :=
  match fuel with
  | O => never
  | S fuel' => cloneNode_body E options (cloneNode E options fuel') node isRoot
  end.

End Clone.

(** ** embed-images.ts *)

Module Embed.

Section WithCollaborators.

Context (E : Env).

Definition embedResourcesOf (cssValue : string) : Promise string :=
  external (EvRewriteCss cssValue) "ResourceFetchError" (embedResources E cssValue).

Definition resourceToDataURLOf (url contentType : string) : Promise string :=
  external (EvResource url contentType) "ResourceFetchError"
    (resourceToDataURL E url contentType).

(** [node.style?.getPropertyValue(propName)], the empty string standing
    for undefined as well (both are falsy). *)
Definition propertyValueOf (propName : string) (node : Node) : string :=
  from_option (getPropertyValue propName) "" (styleOf node).

Definition propertyPriorityOf (propName : string) (node : Node) : string :=
  from_option (getPropertyPriority propName) "" (styleOf node).

Definition embedProp (propName : string) (node : Node) : Promise (Node * bool) :=
  let propValue := propertyValueOf propName node in
  if truthy propValue then
    cssString ← embedResourcesOf propValue;
    let priority := propertyPriorityOf propName node in
    _ ← emit (EvSetProperty propName cssString priority);
    resolve (setStyle propName cssString priority node, true)
  else resolve (node, false).

Definition embedBackground (clonedNode : Node) : Promise Node :=
  r ← embedProp "background" clonedNode;
  clonedNode ← (if negb r.2 then r' ← embedProp "background-image" r.1; resolve r'.1
                else resolve r.1);
  r ← embedProp "mask" clonedNode;
  if negb r.2 then r' ← embedProp "mask-image" r.1; resolve r'.1
  else resolve r.1.

(** The synchronous body of the promise executor: the handlers are
    installed and the source is swapped.  These are the properties of
    the element as the code writes them; in the DOM the content
    attributes [src], [srcset], [loading] and [href] reflect them, and
    the attribute list of the model, which records the markup the clone
    was made from, is not kept in step: nothing is stated about the
    attributes of a node once its source was swapped. *)
Definition swapSource (isHTMLImageElement : bool) (dataURL : string)
    (d : ElementData) : ElementData :=
  mkElementData (tagName d) (interface d) (attributes d) (style d) (value d)
    (scrollTop d) (scrollLeft d) (canvasData d) (currentSrc d) (poster d)
    (if isHTMLImageElement then dataURL else src d)
    (if isHTMLImageElement then "" else srcset d)
    (if isHTMLImageElement then hrefBaseVal d else dataURL)
    (if String.eqb (loading d) "lazy" then "eager" else loading d)
    PromiseResolve
    PromiseReject
    (if bool_decide (decode d = NoHandler) then NoHandler else PromiseResolve).

(** The browser fires [load] or [error] on the node, or nothing at all;
    the promise settles through the handler that was installed. *)
Definition settle (h : Handler) (node : Node) : Outcome Node :=
  match h with
  | PromiseResolve => Done node
  | PromiseReject => Rejected "ImageLoadError"
  | _ => Pending
  end.

Definition awaitLoad (url : string) (node : Node) : Promise Node :=
  fun w =>
    let answer := imageLoad E node in
    let w' := mkWorld (clock w + answer.1) (events w ++ [EvImageLoad url]) in
    match answer.2 with
    | LoadFired => (settle (from_option onload NoHandler (data node)) node, w')
    | ErrorFired => (settle (from_option onerror NoHandler (data node)) node, w')
    | NothingFired => (Pending, w')
    end.

Definition embedImageNode (clonedNode : Node) : Promise Node :=
  let isHTMLImageElement := isInstanceOf clonedNode HTMLImageElement in
  let isSVGImageElement := isInstanceOf clonedNode SVGImageElement in
  let src := from_option src "" (data clonedNode) in
  let href := from_option hrefBaseVal "" (data clonedNode) in
  if negb (isHTMLImageElement && negb (isDataUrl E src))
     && negb (isSVGImageElement && negb (isDataUrl E href))
  then resolve clonedNode
  else
    let url := if isHTMLImageElement then src else href in
    dataURL ← resourceToDataURLOf url (getMimeType E url);
    awaitLoad dataURL (withData (swapSource isHTMLImageElement dataURL) clonedNode).

End WithCollaborators.

End Embed.

Import Clone Embed.

(** * The vocabulary of the properties *)

(** In the clone of a select whose value is [v], a child carries
    [selected] exactly when its [value] attribute is [v]. *)
Definition onlySelected (v : string) (clone : Node) : Prop :=
  ∀ child : Node, child ∈ childNodes clone →
    hasAttribute "selected" child = true ↔ getAttribute "value" child = Some v.

(** The names of the properties written through [setProperty]. *)
Definition writtenProperties (evs : list Event) : list string :=
  omap (fun e => match e with EvSetProperty name _ _ => Some name | _ => None end)
    evs.

(** The URLs handed to the resource resolver. *)
Definition resolvedUrls (evs : list Event) : list string :=
  omap (fun e => match e with EvResource url _ => Some url | _ => None end) evs.

(** What one call of [embedProp] can do. *)
Inductive PropRun (E : Env) (propName : string) (node : Node) (w : World)
  : Outcome (Node * bool) → World → Prop :=
| PropAbsent :
    truthy (propertyValueOf propName node) = false →
    PropRun E propName node w (Done (node, false)) w
| PropWritten lat cssString :
    truthy (propertyValueOf propName node) = true →
    embedResources E (propertyValueOf propName node) = (lat, Some cssString) →
    PropRun E propName node w
      (Done (setStyle propName cssString (propertyPriorityOf propName node) node,
             true))
      (mkWorld (clock w + lat)
         (events w ++ [EvRewriteCss (propertyValueOf propName node);
                       EvSetProperty propName cssString
                         (propertyPriorityOf propName node)]))
| PropFailed lat :
    truthy (propertyValueOf propName node) = true →
    embedResources E (propertyValueOf propName node) = (lat, None) →
    PropRun E propName node w (Rejected "ResourceFetchError")
      (mkWorld (clock w + lat)
         (events w ++ [EvRewriteCss (propertyValueOf propName node)])).

(** The property of a shorthand/longhand pair that [embedBackground]
    rewrites, in the words of the specification: the shorthand if it has
    a value, otherwise the longhand if that has one. *)
Definition target (shorthand longhand : string) (node : Node) : option string :=
  if truthy (propertyValueOf shorthand node) then Some shorthand
  else if truthy (propertyValueOf longhand node) then Some longhand
  else None.

(** One of the two halves of [embedBackground]. *)
Definition embedPair (E : Env) (shorthand longhand : string) (node : Node)
  : Promise Node :=
  r ← embedProp E shorthand node;
  if negb r.2 then r' ← embedProp E longhand r.1; resolve r'.1
  else resolve r.1.

(** The properties [embedBackground] is to rewrite on a node. *)
Definition targets (node : Node) : list string :=
  option_list (target "background" "background-image" node)
  ++ option_list (target "mask" "mask-image" node).

(** The node still has a source to embed: an HTML image whose [src] is
    not a data URL, or an SVG image whose [href] is not one. *)
Definition needsEmbedding (E : Env) (node : Node) : Prop :=
  (isInstanceOf node HTMLImageElement = true
   ∧ isDataUrl E (from_option src "" (data node)) = false)
  ∨ (isInstanceOf node SVGImageElement = true
     ∧ isDataUrl E (from_option hrefBaseVal "" (data node)) = false).

(** The source [embedImageNode] reads. *)
Definition sourceOf (node : Node) : string :=
  if isInstanceOf node HTMLImageElement
  then from_option src "" (data node)
  else from_option hrefBaseVal "" (data node).

#[global] Instance needsEmbedding_dec E node : Decision (needsEmbedding E node).
Proof. unfold needsEmbedding. apply _. Defined.

(** The nodes the filter was evaluated on, in order. *)
Definition filterLog (w : World) : list Node :=
  omap (fun e => match e with EvFilter n => Some n | _ => None end) (events w).

(** A promise that never evaluates the filter. *)
Definition unfiltered {A} (m : Promise A) : Prop :=
  ∀ w : World, filterLog (m w).2 = filterLog w.

(** One child clone as it ran: the world it started in, what it
    resolved to, the world it finished in. *)
Record Run := mkRun { started : World; result : option Node; finished : World }.

(** The children are cloned one after the other: each clone starts in
    the very world in which the clone before it finished. *)
Inductive SequentialRuns (cloneNode_rec : Node → bool → Promise (option Node))
  : list Node → World → list Run → World → Prop :=
| runs_nil w : SequentialRuns cloneNode_rec [] w [] w
| runs_cons child rest w r w1 runs w' :
    cloneNode_rec child false w = (Done r, w1) →
    SequentialRuns cloneNode_rec rest w1 runs w' →
    SequentialRuns cloneNode_rec (child :: rest) w (mkRun w r w1 :: runs) w'.

Definition appendClone (parent : Node) (r : option Node) : Node :=
  match r with Some c => appendChild parent c | None => parent end.

(** The ids the [<use>] elements of the clone carry in [xlink:href], in
    document order. *)
Definition referenced (E : Env) (clone : Node) : list string :=
  omap (getAttribute "xlink:href") (querySelectorAll E "use" clone).

(** The reference of a [<use>] can be looked up: it has no [xlink:href],
    or an empty one, or one that parses as a selector. *)
Definition parses (E : Env) (use : Node) : bool :=
  match getAttribute "xlink:href" use with
  | Some id => negb (truthy id) || validSelector E id
  | None => true
  end.

(** Every [<use>] of the clone has a reference that can be looked up. *)
Definition wellFormed (E : Env) (clone : Node) : Prop :=
  Forall (fun use => parses E use = true) (querySelectorAll E "use" clone).

(** The id names a definition of the document that the clone lacks. *)
Definition missing (E : Env) (clone : Node) (id : string) : bool :=
  truthy id
  && bool_decide (¬ is_Some (querySelector E id clone))
  && bool_decide (is_Some (documentQuerySelector E id)).

(** The ids of a list without repetition, in order of first occurrence,
    leaving out those already [seen]. *)
Fixpoint distinct (seen ids : list string) : list string :=
  match ids with
  | [] => []
  | id :: rest =>
      if bool_decide (id ∈ seen) then distinct seen rest
      else id :: distinct (seen ++ [id]) rest
  end.

(** What the loop body settles on for a [<use>] whose reference can be
    looked up: the id and the definition to clone, if there is one. *)
Definition chosen (E : Env) (clone : Node) (processedDefs : list (string * Node))
    (use : Node) : option (string * Node) :=
  match getAttribute "xlink:href" use with
  | Some id =>
      if missing E clone id && negb (processed id processedDefs)
      then (fun definition => (id, definition)) <$> documentQuerySelector E id
      else None
  | None => None
  end.

(** The definitions [ensureSVGSymbols] has to bring into the clone. *)
Definition needed (E : Env) (clone : Node) : list string :=
  distinct [] (List.filter (missing E clone) (referenced E clone)).

(** The definitions named by the ids are cloned as roots, once each and
    one after the other. *)
Inductive DefinitionsCloned (E : Env)
    (cloneNode_rec : Node → bool → Promise (option Node))
  : list string → World → list Node → World → Prop :=
| defs_nil w : DefinitionsCloned E cloneNode_rec [] w [] w
| defs_cons id ids w definition cloned w1 clones w' :
    documentQuerySelector E id = Some definition →
    cloneNode_rec definition true w = (Done (Some cloned), w1) →
    DefinitionsCloned E cloneNode_rec ids w1 clones w' →
    DefinitionsCloned E cloneNode_rec (id :: ids) w (cloned :: clones) w'.

(** The depth of the nesting [cloneNode] descends: through the child
    nodes, the shadow root, the body of a nested document and the nodes
    assigned to a slot. *)
Fixpoint height (n : Node) : nat :=
  match n with
  | NonElement _ => 0%nat
  | Element _ cs sr fr an =>
      let tallest :=
        fix tallest (l : list Node) : nat :=
          match l with
          | [] => 0%nat
          | c :: l' => Nat.max (height c) (tallest l')
          end in
      S (Nat.max (tallest cs)
           (Nat.max (match sr with Some l => tallest l | None => 0%nat end)
              (Nat.max (match fr with
                        | FrameDocument (Some body) => height body
                        | _ => 0%nat
                        end)
                 (tallest an))))
  end.

Definition tallest (l : list Node) : nat :=
  foldr (fun c m => Nat.max (height c) m) 0%nat l.


(** What the caller of a root clone sees when it did not resolve to a node. *)
Definition failedDefinition {A} (o : Outcome (option Node)) : Outcome A :=
  match o with
  | Rejected reason => Rejected reason
  | Pending => Pending
  | Done _ => Rejected "TypeError"
  end.

(** The values handed to the CSS rewriter. *)
Definition rewrittenValues (evs : list Event) : list string :=
  omap (fun e => match e with EvRewriteCss v => Some v | _ => None end) evs.

(** ** A concrete set of collaborators

    Used to run the model on concrete trees: resources resolve to data
    URLs after a latency that grows with the length of the URL, selectors
    are tag names or [#id], any other string being refused as a
    selector, and matrices print as [matrix(a, b, c, d, e, f)]. *)

Module Demo.

Definition el (tag : string) (i : Interface) (attrs : list (string * string))
    (kids : list Node) : Node :=
  Element (mkElementData tag i attrs (Some ∅) "" 0 0 (Some "data:,")
             "" "" "" "" "" "" NoHandler NoHandler NoHandler)
    kids None FrameNull [].

Definition text (s : string) : Node := NonElement s.

Definition img (url : string) : Node :=
  Element (mkElementData "img" HTMLImageElement [("src", url)] (Some ∅) "" 0 0
             (Some "data:,") "" "" url "" "" "" NoHandler NoHandler NativeHandler)
    [] None FrameNull [].

(** The selectors of this platform: a tag name, or [#] and an id, where
    both are identifiers (a letter or [_], then letters, digits, [-] and
    [_]).  Every other string is refused: [querySelector] throws on it,
    as a browser does on a string that is not a selector (a URL with a
    fragment, say). *)
Definition isLetter (c : ascii) : bool :=
  let n := nat_of_ascii c in
  (Nat.leb 65 n && Nat.leb n 90) || (Nat.leb 97 n && Nat.leb n 122)
  || Nat.eqb n 95.

Definition isIdentifierChar (c : ascii) : bool :=
  let n := nat_of_ascii c in
  isLetter c || (Nat.leb 48 n && Nat.leb n 57) || Nat.eqb n 45.

Fixpoint allChars (f : ascii → bool) (s : string) : bool :=
  match s with
  | EmptyString => true
  | String c rest => f c && allChars f rest
  end.

Definition isIdentifier (s : string) : bool :=
  match s with
  | EmptyString => false
  | String c rest => isLetter c && allChars isIdentifierChar rest
  end.

Definition isSelector (selector : string) : bool :=
  match selector with
  | String "#" name => isIdentifier name
  | _ => isIdentifier selector
  end.

Definition matchesSelector (selector : string) (n : Node) : bool :=
  match selector with
  | String "#" name => bool_decide (getAttribute "id" n = Some name)
  | _ => bool_decide (tagName <$> data n = Some selector)
  end.

Definition showZ (z : Z) : string :=
  DecimalString.NilZero.string_of_int (Z.to_int z).

Definition showQc (q : Qc) : string :=
  if Pos.eqb (Qden q) 1 then showZ (Qnum q)
  else String.append (showZ (Qnum q)) (String.append "/" (showZ (Zpos (Qden q)))).

Definition showMatrix (m : DOMMatrix) : string :=
  let sep := ", " in
  String.concat "" [ "matrix("; showQc (m11 m); sep; showQc (m12 m); sep;
                     showQc (m21 m); sep; showQc (m22 m); sep;
                     showQc (m41 m); sep; showQc (m42 m); ")" ].

Definition quarterTurn : DOMMatrix :=
  set_abcd 0 1 (- (1)) 0 (translateSelf (qz 5) (qz 7) identity).

Definition readMatrix (s : string) : option DOMMatrix :=
  if String.eqb s "" || String.eqb s "none" then Some identity
  else if String.eqb s "matrix(0, 1, -1, 0, 5, 7)" then Some quarterTurn
  else None.

Definition env (doc : list Node) : Env :=
  {| isDataUrl := fun url => startsWith url "data:";
     getMimeType := fun _ => "image/png";
     resourceToDataURL := fun url mime =>
       (String.length url,
        Some (String.concat "" ["data:"; mime; ";base64,"; url]));
     createImage := fun url => (1%nat, Some (img url));
     embedResources := fun v =>
       (1%nat, Some (String.concat "" ["embedded("; v; ")"]));
     getStyleProperties := fun _ => [];
     clonePseudoElements := fun _ cloned => cloned;
     document := doc;
     validSelector := isSelector;
     selectorMatches := matchesSelector;
     getComputedStyle := fun _ => mkComputedStyle "" "" ∅;
     parseCssText := fun _ => ∅;
     parseInnerHTML := fun s => if String.eqb s "" then [] else [NonElement s];
     floorMinusTenth := fun s => s;
     captureFrame := fun _ => Some "data:image/png;base64,frame";
     parseMatrix := readMatrix;
     printMatrix := showMatrix;
     imageLoad := fun _ => (1%nat, LoadFired) |}.

Definition start : World := mkWorld 0 [].

Definition noOptions : Options := Options.mk None false.

(** [<select>] whose markup preselects "a" and whose current value is "b". *)
Definition optionA : Node :=
  el "option" HTMLOtherElement [("value", "a"); ("selected", "")] [text "A"].
Definition optionB : Node :=
  el "option" HTMLOtherElement [("value", "b")] [text "B"].
Definition selectB : Node :=
  Element (mkElementData "select" HTMLSelectElement [] (Some ∅) "b" 0 0 (Some "data:,")
             "" "" "" "" "" "" NoHandler NoHandler NoHandler)
    [optionA; optionB] None FrameNull [].

(** A box scrolled by (10, 20), and a clone of it holding a text node, a
    rotated child and an empty child. *)
Definition scrolledBox : Node :=
  Element (mkElementData "div" HTMLOtherElement [] (Some ∅) "" (qz 20) (qz 10)
             (Some "data:,") "" "" "" "" "" "" NoHandler NoHandler NoHandler)
    [] None FrameNull [].

Definition rotatedChild : Node :=
  setStyle "transform" "matrix(0, 1, -1, 0, 5, 7)" ""
    (el "div" HTMLOtherElement [] [text "turned"]).

Definition emptyChild : Node := el "span" HTMLOtherElement [] [].

Definition scrolledClone : Node :=
  el "div" HTMLOtherElement [] [text "caption"; rotatedChild; emptyChild].


(** An HTML image with a lazy external source and a srcset, an image
    whose source is already inline, and an SVG image. *)
Definition photo : Node :=
  Element (mkElementData "img" HTMLImageElement [("src", "cat.png")] (Some ∅)
             "" 0 0 (Some "data:,") "" "" "cat.png" "cat-2x.png 2x" "" "lazy"
             NoHandler NoHandler NativeHandler)
    [] None FrameNull [].

Definition inlinePhoto : Node := img "data:image/png;base64,AAAA".

Definition svgImage : Node :=
  Element (mkElementData "image" SVGImageElement [("href", "dog.png")] (Some ∅)
             "" 0 0 (Some "data:,") "" "" "" "" "dog.png" ""
             NoHandler NoHandler NoHandler)
    [] None FrameNull [].

(** A filter that rejects every node, and a small tree to clone. *)
Definition rejectAll : Options := Options.mk (Some (fun _ => false)) false.

Definition paragraph : Node := el "p" HTMLOtherElement [] [text "body"].

Definition article : Node :=
  el "article" HTMLOtherElement [] [paragraph; text "tail"].

(** Three videos that are not playing; the poster of the first takes the
    longest to fetch and that of the last the shortest. *)
Definition video (posterUrl : string) (kids : list Node) : Node :=
  Element (mkElementData "video" HTMLVideoElement [] (Some ∅) "" 0 0 (Some "data:,")
             "" posterUrl "" "" "" "" NoHandler NoHandler NoHandler)
    kids None FrameNull [].

Definition gallery : Node :=
  el "div" HTMLOtherElement []
    [video "a-very-large-poster.png" []; video "bb-poster.png" [];
     video "c.png" []].

(** A video with a [<source>] child. *)
Definition source : Node := el "source" HTMLOtherElement [("src", "clip.mp4")] [].
Definition clip : Node := video "clip.png" [source].

(** A document with one symbol, and clones that reference it. *)
Definition symbolIcon : Node :=
  el "symbol" SVGOtherElement [("id", "icon")]
    [el "path" SVGOtherElement [("d", "M0 0h8v8z")] []].

Definition sprite : Node := el "svg" SVGOtherElement [] [symbolIcon].

Definition useIcon : Node :=
  el "use" SVGOtherElement [("xlink:href", "#icon")] [].

Definition modernUse : Node := el "use" SVGOtherElement [("href", "#icon")] [].

Definition twoUses : Node := el "div" HTMLOtherElement [] [useIcon; useIcon].

Definition oneModernUse : Node := el "div" HTMLOtherElement [] [modernUse].

(** An iframe whose nested document is within reach. *)
Definition frameBody : Node := el "body" HTMLOtherElement [] [paragraph].

Definition frame : Node :=
  Element (mkElementData "iframe" HTMLIFrameElement [("src", "inner.html")]
             (Some ∅) "" 0 0 (Some "data:,") "" "" "" "" "" ""
             NoHandler NoHandler NoHandler)
    [] None (FrameDocument (Some frameBody)) [].

End Demo.

(** ** More trees and platforms *)

Module Samples.

(** A symbol whose content references the symbol itself. *)
Definition selfUse (name : string) : Node :=
  Demo.el "use" SVGOtherElement [("xlink:href", String "#" name)] [].

Definition selfSymbol (name : string) : Node :=
  Demo.el "symbol" SVGOtherElement [("id", name)] [selfUse name].

(** A [<use>] that references a symbol of another file, after a [<use>]
    of the document's own symbol and alone. *)
Definition externalUse : Node :=
  Demo.el "use" SVGOtherElement [("xlink:href", "/sprite.svg#icon")] [].


Definition oneExternalUse : Node :=
  Demo.el "div" HTMLOtherElement [] [externalUse].

(** An iframe whose nested document may not be read, alone and as the
    second child of a box. *)
Definition blockedFrame : Node :=
  Element (mkElementData "iframe" HTMLIFrameElement [("src", "https://other.example/")]
             (Some ∅) "" 0 0 (Some "data:,") "" "" "" "" "" ""
             NoHandler NoHandler NoHandler)
    [] None FrameThrows [].

Definition album : Node :=
  Demo.el "div" HTMLOtherElement []
    [Demo.text "caption"; blockedFrame; Demo.paragraph].


(** A platform on which images never finish loading. *)
Definition stalled : Env :=
  let E := Demo.env [] in
  {| isDataUrl := isDataUrl E;
     getMimeType := getMimeType E;
     resourceToDataURL := resourceToDataURL E;
     createImage := createImage E;
     embedResources := embedResources E;
     getStyleProperties := getStyleProperties E;
     clonePseudoElements := clonePseudoElements E;
     document := [];
     validSelector := validSelector E;
     selectorMatches := selectorMatches E;
     getComputedStyle := getComputedStyle E;
     parseCssText := parseCssText E;
     parseInnerHTML := parseInnerHTML E;
     floorMinusTenth := floorMinusTenth E;
     captureFrame := captureFrame E;
     parseMatrix := parseMatrix E;
     printMatrix := printMatrix E;
     imageLoad := fun _ => (0%nat, NothingFired) |}.

End Samples.

(** * Properties *)

(** ** Attributes and styles *)

Lemma assoc_get_set_eq k v l : assoc_get k (assoc_set k v l) = Some v.
Proof.
  induction l as [|[k' v'] l IH]; simpl.
  - by rewrite String.eqb_refl.
  - destruct (String.eqb k k') eqn:Hk; simpl; rewrite ?String.eqb_refl, ?Hk; done.
Qed.

Lemma assoc_get_set_ne k k' v l :
  k ≠ k' → assoc_get k (assoc_set k' v l) = assoc_get k l.
Proof.
  intros Hne. induction l as [|[k0 v0] l IH]; simpl.
  - by apply String.eqb_neq in Hne as ->.
  - destruct (String.eqb k' k0) eqn:Hk; simpl.
    + apply String.eqb_eq in Hk as <-.
      by apply String.eqb_neq in Hne as ->.
    + by rewrite IH.
Qed.

Lemma getAttribute_setAttribute_eq k v n :
  isSupportedElement n = true → getAttribute k (setAttribute k v n) = Some v.
Proof. destruct n; [done|]. intros _. simpl. apply assoc_get_set_eq. Qed.

Lemma getAttribute_setAttribute_ne k k' v n :
  k ≠ k' → getAttribute k (setAttribute k' v n) = getAttribute k n.
Proof. intros Hne. destruct n; [done|]. simpl. by apply assoc_get_set_ne. Qed.

Lemma childNodes_withChildNodes f n :
  isSupportedElement n = true → childNodes (withChildNodes f n) = f (childNodes n).
Proof. by destruct n. Qed.

Lemma childNodes_withData f n : childNodes (withData f n) = childNodes n.
Proof. by destruct n. Qed.

Lemma childNodes_setStyle name v p n : childNodes (setStyle name v p n) = childNodes n.
Proof. apply childNodes_withData. Qed.

Lemma childNodes_setAttribute k v n : childNodes (setAttribute k v n) = childNodes n.
Proof. apply childNodes_withData. Qed.

Lemma truthy_true s : truthy s = true ↔ s ≠ "".
Proof.
  unfold truthy. rewrite negb_true_iff. split.
  - by intros H%String.eqb_neq.
  - by intros H%String.eqb_neq.
Qed.

Lemma truthy_false s : truthy s = false ↔ s = "".
Proof. unfold truthy. rewrite negb_false_iff. apply String.eqb_eq. Qed.

(** ** Select values *)

(** C7 (as amended): cloning the value of a select marks the first cloned
    child element whose [value] attribute equals the select's value with a
    [selected] attribute (the attribute reads back as the empty string)
    and leaves every other child node exactly as it was cloned; when no
    child element carries that value, the clone is left unchanged. *)
Theorem cloneSelectValue_marks_first_match (nativeNode clonedNode : Node) :
  isInstanceOf nativeNode HTMLSelectElement = true →
  (∀ (i : nat) (option : Node),
     childNodes clonedNode !! i = Some option →
     isSelectedOption nativeNode option →
     (∀ (j : nat) (other : Node),
        childNodes clonedNode !! j = Some other → (j < i)%nat →
        ¬ isSelectedOption nativeNode other) →
     childNodes (cloneSelectValue nativeNode clonedNode) !! i
       = Some (setAttribute "selected" "" option)
     ∧ getAttribute "selected" (setAttribute "selected" "" option) = Some ""
     ∧ ∀ j : nat, j ≠ i →
         childNodes (cloneSelectValue nativeNode clonedNode) !! j
           = childNodes clonedNode !! j)
  ∧ ((∀ other : Node, other ∈ childNodes clonedNode →
        ¬ isSelectedOption nativeNode other) →
     cloneSelectValue nativeNode clonedNode = clonedNode).
Proof.
  intros Hsel. unfold cloneSelectValue. rewrite Hsel. split.
  - intros i opt Hi Hopt Hfirst.
    assert (list_find (isSelectedOption nativeNode) (childNodes clonedNode)
            = Some (i, opt)) as ->.
    { apply list_find_Some. eauto. }
    assert (isSupportedElement clonedNode = true) as Hel.
    { destruct clonedNode; [by simpl in Hi | done]. }
    rewrite childNodes_withChildNodes by done.
    split_and!.
    + rewrite list_lookup_alter_eq, Hi. done.
    + apply getAttribute_setAttribute_eq. by destruct Hopt.
    + intros j Hj. by rewrite list_lookup_alter_ne.
  - intros Hnone.
    assert (list_find (isSelectedOption nativeNode) (childNodes clonedNode)
            = None) as ->; [|done].
    apply list_find_None, list.Forall_forall. done.
Qed.

(** On the select preselecting "a" with value "b": the second option is
    the one that gets marked. *)
Lemma cloneSelectValue_marks_first_match_witness :
  childNodes (cloneSelectValue Demo.selectB
                (withChildNodes (fun _ => [Demo.optionA; Demo.optionB])
                   (shallowClone Demo.selectB))) !! 1%nat
  = Some (setAttribute "selected" "" Demo.optionB).
Proof.
  refine (proj1 (proj1 (cloneSelectValue_marks_first_match Demo.selectB _ _)
                   1%nat Demo.optionB _ _ _)).
  - reflexivity.
  - reflexivity.
  - split; reflexivity.
  - intros [|j] other Hj Hlt [_ Hv]; [|lia].
    simpl in Hj. injection Hj as <-. discriminate Hv.
Defined.

(** C7 fails as stated: the option that the markup preselected keeps its
    [selected] attribute in the clone, next to the option that matches the
    current value. *)
Lemma select_clone_keeps_preselected_option :
  from_option value "" (data Demo.selectB) = "b"
  ∧ ∃ clone : Node,
      (cloneNode (Demo.env []) Demo.noOptions 3 Demo.selectB true Demo.start).1
        = Done (Some clone)
      ∧ ¬ onlySelected "b" clone.
Proof.
  split; [reflexivity|]. eexists. split.
  - vm_compute. reflexivity.
  - intros Honly.
    destruct (Honly (setAttribute "selected" "" Demo.optionA)) as [Hab _].
    + vm_compute. apply list_elem_of_here.
    + discriminate Hab. reflexivity.
Qed.

(** ** Scroll compensation *)

Lemma scrolledMatrix_entries nativeNode m :
  let m' := scrolledMatrix nativeNode m in
  m11 m' = m11 m ∧ m12 m' = m12 m ∧ m21 m' = m21 m ∧ m22 m' = m22 m
  ∧ m41 m' = m41 m - from_option scrollLeft 0 (data nativeNode)
  ∧ m42 m' = m42 m - from_option scrollTop 0 (data nativeNode).
Proof. simpl. split_and!; try reflexivity; ring. Qed.

Lemma scrollChild_element E nativeNode child st m :
  isSupportedElement child = true →
  styleOf child = Some st →
  parseMatrix E (getPropertyValue "transform" st) = Some m →
  scrollChild E nativeNode child
  = Some (setStyle "transform" (printMatrix E (scrolledMatrix nativeNode m)) "" child).
Proof.
  intros Hel Hst Hm. destruct child; [done|].
  unfold scrollChild. simpl children. cbv beta iota.
  rewrite Hst. simpl. rewrite Hm. done.
Qed.

Lemma cloneScrollPosition_scrolled E nativeNode d cs sr fr an :
  isScrolled nativeNode = true →
  cloneScrollPosition E nativeNode (Element d cs sr fr an)
  = (patched ← mapM (fun child =>
                       if isSupportedElement child
                       then scrollChild E nativeNode child
                       else Some child) cs;
     Some (Element d patched sr fr an)).
Proof.
  intros Hs. unfold cloneScrollPosition. rewrite Hs. simpl children.
  rewrite bool_decide_true by eauto. reflexivity.
Qed.

(** C8 (as amended): when the original is not scrolled the clone is
    returned unchanged.  When it is scrolled, every child element of the
    clone, whether or not it has children of its own, gets the transform
    whose matrix keeps the entries a, b, c, d of its prior transform and
    has e and f moved by (-scrollLeft, -scrollTop); the child nodes that
    are not elements are never visited. *)
Theorem cloneScrollPosition_patches_element_children
    (E : Env) (nativeNode clonedNode : Node) :
  (isScrolled nativeNode = false →
   cloneScrollPosition E nativeNode clonedNode = Some clonedNode)
  ∧ (isScrolled nativeNode = true →
     (∀ child : Node, child ∈ childNodes clonedNode →
        isSupportedElement child = true →
        ∃ st m, styleOf child = Some st
                ∧ parseMatrix E (getPropertyValue "transform" st) = Some m) →
     ∃ patched : Node,
       cloneScrollPosition E nativeNode clonedNode = Some patched
       ∧ data patched = data clonedNode
       ∧ List.length (childNodes patched) = List.length (childNodes clonedNode)
       ∧ ∀ (i : nat) (child : Node),
           childNodes clonedNode !! i = Some child →
           if isSupportedElement child then
             ∃ st m m',
               styleOf child = Some st
               ∧ parseMatrix E (getPropertyValue "transform" st) = Some m
               ∧ childNodes patched !! i
                 = Some (setStyle "transform" (printMatrix E m') "" child)
               ∧ m11 m' = m11 m ∧ m12 m' = m12 m
               ∧ m21 m' = m21 m ∧ m22 m' = m22 m
               ∧ m41 m' = m41 m - from_option scrollLeft 0 (data nativeNode)
               ∧ m42 m' = m42 m - from_option scrollTop 0 (data nativeNode)
           else childNodes patched !! i = Some child).
Proof.
  split.
  - intros Hs. unfold cloneScrollPosition. by rewrite Hs.
  - intros Hs Hok.
    destruct clonedNode as [s|d cs sr fr an].
    { exists (NonElement s). unfold cloneScrollPosition. rewrite Hs. simpl.
      split_and!; done. }
    rewrite cloneScrollPosition_scrolled by done.
    simpl in Hok.
    set (step := fun child : Node =>
                   if isSupportedElement child
                   then scrollChild E nativeNode child else Some child).
    assert (Hstep : ∀ child, child ∈ cs →
              step child = Some
                (if isSupportedElement child then
                   match styleOf child with
                   | Some st =>
                       match parseMatrix E (getPropertyValue "transform" st) with
                       | Some m =>
                           setStyle "transform"
                             (printMatrix E (scrolledMatrix nativeNode m)) "" child
                       | None => child
                       end
                   | None => child
                   end
                 else child)).
    { intros child Hin. unfold step.
      destruct (isSupportedElement child) eqn:Hel; [|done].
      destruct (Hok child Hin Hel) as (st & m & Hst & Hm).
      rewrite Hst, Hm. by apply (scrollChild_element E nativeNode child st m). }
    destruct (mapM step cs) as [patched|] eqn:Hmap.
    2:{ exfalso. assert (is_Some (mapM step cs)) as [? Hx]; [|congruence].
        apply mapM_is_Some, list.Forall_forall. intros child Hin.
        change (is_Some (step child)). rewrite (Hstep child Hin). done. }
    exists (Element d patched sr fr an). simpl.
    apply mapM_Some in Hmap.
    split_and!; try done.
    + symmetry. by eapply Forall2_length.
    + intros i child Hi.
      destruct (Forall2_lookup_l _ _ _ _ _ Hmap Hi) as (child' & Hi' & Hc).
      rewrite (Hstep child) in Hc by (by eapply list_elem_of_lookup_2).
      injection Hc as <-.
      destruct (isSupportedElement child) eqn:Hel; [|done].
      destruct (Hok child) as (st & m & Hst & Hm);
        [by eapply list_elem_of_lookup_2 | done |].
      exists st, m, (scrolledMatrix nativeNode m).
      rewrite Hst, Hm in Hi'.
      pose proof (scrolledMatrix_entries nativeNode m) as Hentries.
      simpl in Hentries. split_and!; try done; apply Hentries.
Qed.

(** On a box scrolled by (10, 20): the text node stays, the rotated child
    keeps its quarter turn and moves from (5, 7) to (-5, -13), the empty
    child moves from the origin to (-10, -20). *)
Lemma cloneScrollPosition_patches_element_children_witness :
  ∃ patched : Node,
    cloneScrollPosition (Demo.env []) Demo.scrolledBox Demo.scrolledClone
      = Some patched
    ∧ childNodes patched
      = [ Demo.text "caption";
          setStyle "transform" "matrix(0, 1, -1, 0, -5, -13)" "" Demo.rotatedChild;
          setStyle "transform" "matrix(1, 0, 0, 1, -10, -20)" "" Demo.emptyChild ].
Proof.
  destruct (proj2 (cloneScrollPosition_patches_element_children
                     (Demo.env []) Demo.scrolledBox Demo.scrolledClone))
    as (patched & Hrun & _).
  - reflexivity.
  - intros child Hin Hel.
    apply elem_of_cons in Hin as [->|Hin]; [discriminate Hel|].
    apply elem_of_cons in Hin as [->|Hin]; [by eexists _, _|].
    apply elem_of_cons in Hin as [->|Hin]; [by eexists _, _|].
    by apply elem_of_nil in Hin.
  - exists patched. split; [exact Hrun|].
    vm_compute in Hrun. injection Hrun as <-. vm_compute. reflexivity.
Defined.

(** C8 fails as stated: a child element without children of its own is
    not skipped; its transform is rewritten like that of any other child
    element. *)
Lemma scroll_rewrites_childless_element :
  childNodes Demo.emptyChild = []
  ∧ ∃ patched : Node,
      cloneScrollPosition (Demo.env []) Demo.scrolledBox Demo.scrolledClone
        = Some patched
      ∧ childNodes patched !! 2%nat
        = Some (setStyle "transform" "matrix(1, 0, 0, 1, -10, -20)" ""
                  Demo.emptyChild)
      ∧ childNodes patched !! 2%nat ≠ Some Demo.emptyChild.
Proof.
  split; [reflexivity|]. eexists. split; [vm_compute; reflexivity|].
  split; [vm_compute; reflexivity|]. vm_compute. discriminate.
Qed.

(** ** Promises: how the steps compose *)

Lemma andThen_run {A B} (m : Promise A) (k : A → Promise B) w :
  (m ≫= k) w
  = match m w with
    | (Done a, w') => k a w'
    | (Rejected r, w') => (Rejected r, w')
    | (Pending, w') => (Pending, w')
    end.
Proof. reflexivity. Qed.

Lemma andThen_done {A B} (m : Promise A) (k : A → Promise B) w a w' :
  m w = (Done a, w') → (m ≫= k) w = k a w'.
Proof. intros H. by rewrite andThen_run, H. Qed.

Lemma andThen_rejected {A B} (m : Promise A) (k : A → Promise B) w r w' :
  m w = (Rejected r, w') → (m ≫= k) w = (Rejected r, w').
Proof. intros H. by rewrite andThen_run, H. Qed.

Lemma andThen_pending {A B} (m : Promise A) (k : A → Promise B) w w' :
  m w = (Pending, w') → (m ≫= k) w = (Pending, w').
Proof. intros H. by rewrite andThen_run, H. Qed.

Lemma andThen_done_inv {A B} (m : Promise A) (k : A → Promise B) w b w' :
  (m ≫= k) w = (Done b, w') →
  ∃ a w1, m w = (Done a, w1) ∧ k a w1 = (Done b, w').
Proof.
  rewrite andThen_run. destruct (m w) as [[a|r|] w1]; [eauto|done..].
Qed.

Lemma external_run {A} e reason lat (o : option A) w :
  external e reason (lat, o) w
  = (match o with Some a => Done a | None => Rejected reason end,
     mkWorld (clock w + lat) (events w ++ [e])).
Proof. unfold external. simpl. by destruct o. Qed.

(** ** Styles *)

Lemma styleOf_setStyle name v p n :
  styleOf (setStyle name v p n) = setProperty name v p <$> styleOf n.
Proof. destruct n as [|d]; [done|]. unfold styleOf. simpl. by destruct (style d). Qed.

Lemma propertyValueOf_setStyle_ne name name' v p n :
  name ≠ name' →
  propertyValueOf name (setStyle name' v p n) = propertyValueOf name n.
Proof.
  intros Hne. unfold propertyValueOf. rewrite styleOf_setStyle.
  destruct (styleOf n) as [st|]; [|done]. simpl.
  unfold getPropertyValue, setProperty. by rewrite lookup_insert_ne.
Qed.


Lemma truthy_propertyValueOf_style name n :
  truthy (propertyValueOf name n) = true → is_Some (styleOf n).
Proof. unfold propertyValueOf. by destruct (styleOf n). Qed.

Lemma propertyValueOf_setStyle_eq name v p n :
  is_Some (styleOf n) → propertyValueOf name (setStyle name v p n) = v.
Proof.
  intros [st Hst]. unfold propertyValueOf. rewrite styleOf_setStyle, Hst. simpl.
  unfold getPropertyValue, setProperty. by rewrite lookup_insert_eq.
Qed.

Lemma propertyPriorityOf_setStyle_eq name v p n :
  is_Some (styleOf n) → propertyPriorityOf name (setStyle name v p n) = p.
Proof.
  intros [st Hst]. unfold propertyPriorityOf. rewrite styleOf_setStyle, Hst. simpl.
  unfold getPropertyPriority, setProperty. by rewrite lookup_insert_eq.
Qed.

(** ** The style embedder *)

Lemma embedProp_run E propName node w :
  PropRun E propName node w (embedProp E propName node w).1
    (embedProp E propName node w).2.
Proof.
  unfold embedProp.
  destruct (truthy (propertyValueOf propName node)) eqn:Hv.
  - unfold embedResourcesOf. rewrite andThen_run.
    destruct (embedResources E (propertyValueOf propName node)) as [lat o] eqn:He.
    rewrite external_run. destruct o as [css|]; simpl.
    + rewrite <- (assoc_L (++)). simpl. by eapply PropWritten.
    + by eapply PropFailed.
  - by apply PropAbsent.
Qed.

Lemma embedBackground_pairs E node w :
  embedBackground E node w
  = (n ← embedPair E "background" "background-image" node;
     embedPair E "mask" "mask-image" n) w.
Proof.
  unfold embedBackground, embedPair. rewrite !andThen_run.
  destruct (embedProp E "background" node w) as [[[n b]|r|] w1]; done.
Qed.

Lemma embedPair_run E shorthand longhand node w :
  embedPair E shorthand longhand node w
  = match target shorthand longhand node with
    | None => (Done node, w)
    | Some name =>
        let v := propertyValueOf name node in
        let priority := propertyPriorityOf name node in
        match embedResources E v with
        | (lat, Some cssString) =>
            (Done (setStyle name cssString priority node),
             mkWorld (clock w + lat)
               (events w ++ [EvRewriteCss v; EvSetProperty name cssString priority]))
        | (lat, None) =>
            (Rejected "ResourceFetchError",
             mkWorld (clock w + lat) (events w ++ [EvRewriteCss v]))
        end
    end.
Proof.
  unfold embedPair, target. rewrite andThen_run.
  pose proof (embedProp_run E shorthand node w) as Hs.
  destruct (embedProp E shorthand node w) as [o1 w1]. simpl in Hs.
  inversion Hs as [Hv|lat css Hv He|lat Hv He]; subst; rewrite Hv.
  - simpl. rewrite andThen_run.
    pose proof (embedProp_run E longhand node w1) as Hl.
    destruct (embedProp E longhand node w1) as [o2 w2]. simpl in Hl.
    inversion Hl as [Hv'|lat css Hv' He|lat Hv' He]; subst; rewrite Hv'.
    + done.
    + simpl. by rewrite He.
    + simpl. by rewrite He.
  - simpl. by rewrite He.
  - simpl. by rewrite He.
Qed.

Lemma target_setStyle_ne shorthand longhand name v p node :
  name ≠ shorthand → name ≠ longhand →
  target shorthand longhand (setStyle name v p node)
  = target shorthand longhand node.
Proof.
  intros H1 H2. unfold target.
  by rewrite !propertyValueOf_setStyle_ne.
Qed.



Lemma target_shorthand shorthand longhand node name :
  shorthand ≠ longhand →
  target shorthand longhand node = Some name →
  (name = shorthand ↔ propertyValueOf shorthand node ≠ "")
  ∧ (name = longhand ↔ propertyValueOf shorthand node = ""
                        ∧ propertyValueOf longhand node ≠ "").
Proof.
  intros Hne. unfold target.
  destruct (truthy (propertyValueOf shorthand node)) eqn:Hs.
  - intros [= <-]. apply truthy_true in Hs. naive_solver.
  - destruct (truthy (propertyValueOf longhand node)) eqn:Hl; [|done].
    intros [= <-]. apply truthy_false in Hs. apply truthy_true in Hl.
    naive_solver.
Qed.

Lemma target_None shorthand longhand node :
  target shorthand longhand node = None →
  propertyValueOf shorthand node = "" ∧ propertyValueOf longhand node = "".
Proof.
  unfold target.
  destruct (truthy (propertyValueOf shorthand node)) eqn:Hs; [done|].
  destruct (truthy (propertyValueOf longhand node)) eqn:Hl; [done|].
  intros _. by split; apply truthy_false.
Qed.







(** ** The image node embedder *)

Lemma isInstanceOf_exclusive node i j :
  isInstanceOf node i = true → i ≠ j → isInstanceOf node j = false.
Proof.
  unfold isInstanceOf. intros Hi%bool_decide_eq_true Hne.
  apply bool_decide_eq_false. congruence.
Qed.

Lemma embedImageNode_skip E node w :
  ¬ needsEmbedding E node → embedImageNode E node w = (Done node, w).
Proof.
  intros Hno. unfold embedImageNode, needsEmbedding in *.
  destruct (isInstanceOf node HTMLImageElement) eqn:Hh,
           (isDataUrl E (from_option src "" (data node))) eqn:Hs,
           (isInstanceOf node SVGImageElement) eqn:Hv,
           (isDataUrl E (from_option hrefBaseVal "" (data node))) eqn:Hr;
    simpl; try done; exfalso; apply Hno; auto.
Qed.

Lemma embedImageNode_go E node w :
  needsEmbedding E node →
  embedImageNode E node w
  = (dataURL ← Embed.resourceToDataURLOf E (sourceOf node)
                 (getMimeType E (sourceOf node));
     awaitLoad E dataURL
       (withData (swapSource (isInstanceOf node HTMLImageElement) dataURL) node)) w.
Proof.
  intros Hneed. unfold embedImageNode, sourceOf.
  destruct Hneed as [[Hh Hs]|[Hv Hr]].
  - rewrite Hh, Hs. simpl. done.
  - rewrite Hv, Hr.
    rewrite (isInstanceOf_exclusive node SVGImageElement HTMLImageElement) by done.
    simpl. done.
Qed.

Lemma awaitLoad_done E url node w node' w' :
  awaitLoad E url node w = (Done node', w') → node' = node.
Proof.
  unfold awaitLoad, settle.
  destruct (imageLoad E node).2;
    [destruct (from_option onload NoHandler (data node))
    |destruct (from_option onerror NoHandler (data node))|];
    simpl; congruence.
Qed.

Lemma awaitLoad_events E url node w :
  events (awaitLoad E url node w).2 = events w ++ [EvImageLoad url].
Proof. unfold awaitLoad. by destruct (imageLoad E node).2. Qed.

Lemma isInstanceOf_withData f node i :
  (∀ d, interface (f d) = interface d) →
  isInstanceOf (withData f node) i = isInstanceOf node i.
Proof.
  intros Hf. destruct node as [|d]; [done|].
  unfold isInstanceOf, interfaceOf. simpl. by rewrite Hf.
Qed.

Lemma swapped_not_needsEmbedding E node dataURL :
  needsEmbedding E node →
  isDataUrl E dataURL = true →
  ¬ needsEmbedding E
      (withData (swapSource (isInstanceOf node HTMLImageElement) dataURL) node).
Proof.
  intros Hneed Hd. unfold needsEmbedding.
  rewrite !isInstanceOf_withData by done.
  destruct node as [|d cs sr fr an]; [by destruct Hneed as [[? _]|[? _]]|].
  destruct Hneed as [[Hh _]|[Hv _]].
  - rewrite Hh, (isInstanceOf_exclusive _ _ SVGImageElement Hh) by done.
    simpl. rewrite Hd. naive_solver.
  - rewrite Hv, (isInstanceOf_exclusive _ _ HTMLImageElement Hv) by done.
    simpl. rewrite Hd. naive_solver.
Qed.

(** C2: the image node embedder leaves alone (node and world) every node
    that is not an HTML image with an external [src] or an SVG image with
    an external [href]; after a run that embedded a data URL a second run
    changes nothing; and no data URL is ever handed to the resolver. *)
Theorem embedImageNode_noop_when_inline (E : Env) (node : Node) :
  (∀ w : World,
     ¬ needsEmbedding E node → embedImageNode E node w = (Done node, w))
  ∧ (∀ (w : World) (node' : Node) (w' : World),
       (∀ url mime lat d,
          resourceToDataURL E url mime = (lat, Some d) → isDataUrl E d = true) →
       embedImageNode E node w = (Done node', w') →
       ∀ w2 : World, embedImageNode E node' w2 = (Done node', w2))
  ∧ (∀ w : World,
       ∃ delta : list Event,
         events (embedImageNode E node w).2 = events w ++ delta
         ∧ ∀ url : string, url ∈ resolvedUrls delta → isDataUrl E url = false).
Proof.
  split_and!.
  - intros w. apply embedImageNode_skip.
  - intros w node' w' Hcontract Hrun w2.
    destruct (decide (needsEmbedding E node)) as [Hneed|Hno].
    + rewrite embedImageNode_go in Hrun by done.
      apply andThen_done_inv in Hrun as (d & w1 & Hres & Hload).
      unfold Embed.resourceToDataURLOf in Hres.
      destruct (resourceToDataURL E (sourceOf node) (getMimeType E (sourceOf node)))
        as [lat o] eqn:Hr.
      rewrite external_run in Hres. destruct o as [d'|]; [|done].
      injection Hres as <- <-.
      apply awaitLoad_done in Hload as ->.
      apply embedImageNode_skip, swapped_not_needsEmbedding; eauto.
    + rewrite embedImageNode_skip in Hrun by done. injection Hrun as <- <-.
      by apply embedImageNode_skip.
  - intros w.
    destruct (decide (needsEmbedding E node)) as [Hneed|Hno].
    + rewrite embedImageNode_go by done. rewrite andThen_run.
      unfold Embed.resourceToDataURLOf.
      destruct (resourceToDataURL E (sourceOf node) (getMimeType E (sourceOf node)))
        as [lat o] eqn:Hr.
      rewrite external_run.
      assert (isDataUrl E (sourceOf node) = false) as Hsrc.
      { unfold sourceOf. destruct Hneed as [[-> ?]|[Hv ?]]; [done|].
        by rewrite (isInstanceOf_exclusive _ _ HTMLImageElement Hv). }
      destruct o as [d|].
      * rewrite awaitLoad_events. simpl. rewrite <- (assoc_L (++)).
        eexists. split; [reflexivity|]. simpl. set_solver.
      * simpl. eexists. split; [reflexivity|]. simpl. set_solver.
    + rewrite embedImageNode_skip by done. exists []. simpl.
      rewrite app_nil_r. set_solver.
Qed.

(** A photo is embedded by a first run and left alone by a second one;
    a photo that is inline from the start is left alone at once. *)
Lemma embedImageNode_noop_when_inline_witness :
  ∃ (node' : Node) (w' : World),
    embedImageNode (Demo.env []) Demo.photo Demo.start = (Done node', w')
    ∧ embedImageNode (Demo.env []) node' w' = (Done node', w')
    ∧ embedImageNode (Demo.env []) Demo.inlinePhoto Demo.start
      = (Done Demo.inlinePhoto, Demo.start).
Proof.
  destruct (embedImageNode_noop_when_inline (Demo.env []) Demo.photo)
    as (_ & Hidem & _).
  destruct (embedImageNode_noop_when_inline (Demo.env []) Demo.inlinePhoto)
    as (Hskip & _ & _).
  eexists _, _. split_and!.
  - vm_compute. reflexivity.
  - eapply (Hidem Demo.start).
    + intros url mime lat d [= _ <-]. reflexivity.
    + vm_compute. reflexivity.
  - apply Hskip. intros [[_ Hs]|[Hv _]]; discriminate.
Defined.

(** C9: when the resolver answers with [dataURL] and the browser then
    fires [load], the run succeeds; an HTML image ends with an empty
    [srcset] and [src = dataURL], an SVG image with [href.baseVal =
    dataURL] and its [src] and [srcset] as they were.  Inline style and
    children are not touched.  (The content attributes that reflect
    these properties follow them in the DOM; the statement is about the
    properties.) *)
Theorem embedImageNode_swaps_source
    (E : Env) (node : Node) (w : World) (lat lat' : nat) (dataURL : string) :
  needsEmbedding E node →
  resourceToDataURL E (sourceOf node) (getMimeType E (sourceOf node))
    = (lat, Some dataURL) →
  imageLoad E (withData (swapSource (isInstanceOf node HTMLImageElement) dataURL)
                 node)
    = (lat', LoadFired) →
  ∃ node' : Node,
    embedImageNode E node w
      = (Done node',
         mkWorld (clock w + lat + lat')
           (events w ++ [EvResource (sourceOf node) (getMimeType E (sourceOf node));
                         EvImageLoad dataURL]))
    ∧ (isInstanceOf node HTMLImageElement = true →
       srcset <$> data node' = Some ""
       ∧ src <$> data node' = Some dataURL
       ∧ hrefBaseVal <$> data node' = hrefBaseVal <$> data node)
    ∧ (isInstanceOf node SVGImageElement = true →
       hrefBaseVal <$> data node' = Some dataURL
       ∧ srcset <$> data node' = srcset <$> data node
       ∧ src <$> data node' = src <$> data node)
    ∧ style <$> data node' = style <$> data node
    ∧ childNodes node' = childNodes node.
Proof.
  intros Hneed Hres Hload.
  exists (withData (swapSource (isInstanceOf node HTMLImageElement) dataURL) node).
  split.
  - rewrite embedImageNode_go by done.
    unfold Embed.resourceToDataURLOf.
    erewrite andThen_done; [|by rewrite Hres, external_run].
    unfold awaitLoad. rewrite Hload.
    destruct node as [|d cs sr fr an]; [by destruct Hneed as [[? _]|[? _]]|].
    simpl. by rewrite <- (assoc_L (++)).
  - destruct node as [|d cs sr fr an]; [by destruct Hneed as [[? _]|[? _]]|].
    split_and!; try done.
    + by intros ->.
    + intros Hv.
      by rewrite (isInstanceOf_exclusive _ _ HTMLImageElement Hv).
Qed.

(** The lazy photo with a srcset: fetched in 7 ticks, loaded in 1, it
    ends with the data URL as [src] and an empty [srcset]. *)
Lemma embedImageNode_swaps_source_witness :
  ∃ node' : Node,
    embedImageNode (Demo.env []) Demo.photo Demo.start
      = (Done node',
         mkWorld 8
           [EvResource "cat.png" "image/png";
            EvImageLoad "data:image/png;base64,cat.png"])
    ∧ srcset <$> data node' = Some ""
    ∧ src <$> data node' = Some "data:image/png;base64,cat.png".
Proof.
  destruct (embedImageNode_swaps_source (Demo.env []) Demo.photo Demo.start
              7 1 "data:image/png;base64,cat.png")
    as (node' & Hrun & Hhtml & _).
  - left. split; reflexivity.
  - reflexivity.
  - reflexivity.
  - exists node'. split; [exact Hrun|].
    destruct Hhtml as (Hsrcset & Hsrc & _); [reflexivity|]. by split.
Defined.

(** ** Iframes *)

Lemma tryCatch_run {A} (body handler : Promise A) w :
  tryCatch body handler w
  = match body w with
    | (Rejected _, w') => handler w'
    | r => r
    end.
Proof. reflexivity. Qed.

(** C5: when reading the nested document throws, or there is no document,
    or the document has no body, [cloneIFrameElement] resolves (whatever
    [cloneNode] would do, it is not called) with the shallow clone of the
    iframe, which has the iframe's attributes and no children.  The
    nested body is cloned, as a root, only when it is there; the clone of
    the body then stands for the iframe, and a rejection of that nested
    clone is swallowed as well. *)
Theorem cloneIFrameElement_fallback
    (cloneNode_rec : Node → bool → Promise (option Node))
    (iframe : Node) (w : World) :
  match contentDocument iframe with
  | FrameDocument (Some body) =>
      cloneIFrameElement cloneNode_rec iframe w
      = match cloneNode_rec body true w with
        | (Done (Some clonedBody), w') => (Done clonedBody, w')
        | (Done None, w') => (Rejected "TypeError", w')
        | (Rejected _, w') => (Done (shallowClone iframe), w')
        | (Pending, w') => (Pending, w')
        end
  | FrameDocument None | FrameNull | FrameThrows =>
      cloneIFrameElement cloneNode_rec iframe w = (Done (shallowClone iframe), w)
  end
  ∧ attributes <$> data (shallowClone iframe) = attributes <$> data iframe
  ∧ childNodes (shallowClone iframe) = [].
Proof.
  split; [|by destruct iframe].
  unfold cloneIFrameElement, contentBody.
  rewrite andThen_run, tryCatch_run, andThen_run.
  destruct (contentDocument iframe) as [| |[body|]]; try done.
  simpl. rewrite andThen_run.
  by destruct (cloneNode_rec body true w) as [[[c|]|r|] w'].
Qed.

(** ** The filter *)

Lemma unfiltered_resolve {A} (a : A) : unfiltered (resolve a).
Proof. done. Qed.

Lemma unfiltered_reject {A} r : unfiltered (@reject A r).
Proof. done. Qed.

Lemma unfiltered_orThrow {A} r (o : option A) : unfiltered (orThrow r o).
Proof. by destruct o. Qed.

Lemma unfiltered_andThen {A B} (m : Promise A) (k : A → Promise B) :
  unfiltered m → (∀ a, unfiltered (k a)) → unfiltered (m ≫= k).
Proof.
  intros Hm Hk w. rewrite andThen_run. specialize (Hm w).
  destruct (m w) as [[a|r|] w1]; simpl in *; [|done..].
  by rewrite Hk.
Qed.

Lemma unfiltered_tryCatch {A} (body handler : Promise A) :
  unfiltered body → unfiltered handler → unfiltered (tryCatch body handler).
Proof.
  intros Hb Hh w. rewrite tryCatch_run. specialize (Hb w).
  destruct (body w) as [[a|r|] w1]; simpl in *; [done| |done].
  by rewrite Hh.
Qed.

Lemma unfiltered_external {A} e reason (answer : nat * option A) :
  (∀ n, e ≠ EvFilter n) → unfiltered (external e reason answer).
Proof.
  intros He w. destruct answer as [lat o]. rewrite external_run.
  unfold filterLog. simpl. rewrite omap_app. simpl.
  destruct e; try by rewrite app_nil_r. by destruct (He n).
Qed.

Lemma unfiltered_foldl {A} (step : Promise A → Node → Promise A) cs :
  (∀ m c, unfiltered m → unfiltered (step m c)) →
  ∀ m, unfiltered m → unfiltered (foldl step m cs).
Proof.
  intros Hstep. induction cs as [|c cs IH]; intros m Hm; simpl; [done|].
  apply IH. by apply Hstep.
Qed.

Section Unfiltered.

Context (E : Env) (options : Options).
Variable cloneNode_rec : Node → bool → Promise (option Node).
Hypothesis rec_unfiltered : ∀ n b, unfiltered (cloneNode_rec n b).

Lemma unfiltered_contentBody n : unfiltered (contentBody n).
Proof. unfold contentBody. by destruct (contentDocument n). Qed.

Lemma unfiltered_cloneSingleElement node :
  unfiltered (cloneSingleElement E cloneNode_rec node).
Proof.
  unfold cloneSingleElement, cloneCanvasElement, cloneVideoElement,
    cloneIFrameElement, createImageOf, Clone.resourceToDataURLOf, toDataURL.
  repeat case_match;
    repeat first
      [ apply unfiltered_resolve | apply unfiltered_reject
      | apply unfiltered_orThrow
      | apply unfiltered_contentBody | apply rec_unfiltered
      | apply unfiltered_external; done
      | apply unfiltered_tryCatch
      | apply unfiltered_andThen; [|intros ?]
      | case_match ].
Qed.

Lemma unfiltered_cloneChildren nativeNode clonedNode :
  unfiltered (cloneChildren cloneNode_rec nativeNode clonedNode).
Proof.
  unfold cloneChildren. apply unfiltered_andThen.
  - unfold resolvedChildren.
    repeat case_match;
      repeat first
        [ apply unfiltered_resolve | apply unfiltered_contentBody
        | apply unfiltered_andThen; [|intros ?] | case_match ].
  - intros cs. case_match; [apply unfiltered_resolve|].
    apply unfiltered_foldl; [|apply unfiltered_resolve].
    intros m c Hm. unfold cloneChildStep.
    apply unfiltered_andThen; [done|]. intros p.
    apply unfiltered_andThen; [apply rec_unfiltered|]. intros r.
    apply unfiltered_resolve.
Qed.

Lemma unfiltered_decorate nativeNode clonedNode :
  unfiltered (decorate E options nativeNode clonedNode).
Proof.
  unfold decorate.
  repeat case_match; first [apply unfiltered_resolve | apply unfiltered_orThrow].
Qed.

Lemma unfiltered_selected {A} selector (found : A) :
  unfiltered (selected E selector found).
Proof. unfold selected. by destruct (validSelector E selector). Qed.

Lemma unfiltered_wanted clone processedDefs use :
  unfiltered (wanted E clone processedDefs use).
Proof.
  unfold wanted.
  destruct (getAttribute "xlink:href" use) as [id|]; [|apply unfiltered_resolve].
  destruct (truthy id); [|apply unfiltered_resolve].
  apply unfiltered_andThen; [apply unfiltered_selected|]. intros exist.
  apply unfiltered_andThen; [apply unfiltered_selected|]. intros definition.
  apply unfiltered_resolve.
Qed.

Lemma unfiltered_collectDefs clone uses processedDefs :
  unfiltered (collectDefs E cloneNode_rec clone uses processedDefs).
Proof.
  revert processedDefs.
  induction uses as [|use rest IH]; intros processedDefs; simpl.
  - apply unfiltered_resolve.
  - apply unfiltered_andThen; [apply unfiltered_wanted|].
    intros [[id definition]|]; [|apply IH].
    apply unfiltered_andThen; [|intros ?; apply IH].
    unfold cloneDefinition. apply unfiltered_andThen; [apply rec_unfiltered|].
    intros r. apply unfiltered_orThrow.
Qed.

Lemma unfiltered_ensureSVGSymbols clone :
  unfiltered (ensureSVGSymbols E cloneNode_rec clone).
Proof.
  unfold ensureSVGSymbols. case_match; [apply unfiltered_resolve|].
  apply unfiltered_andThen; [apply unfiltered_collectDefs|].
  intros defs. case_match; apply unfiltered_resolve.
Qed.

Lemma unfiltered_root node :
  unfiltered (cloneNode_body E options cloneNode_rec node true).
Proof.
  unfold cloneNode_body, excluded.
  apply unfiltered_andThen; [apply unfiltered_resolve|]. intros dropped.
  repeat case_match; try apply unfiltered_resolve.
  apply unfiltered_andThen; [apply unfiltered_cloneSingleElement|]. intros c1.
  apply unfiltered_andThen; [apply unfiltered_cloneChildren|]. intros c2.
  apply unfiltered_andThen; [apply unfiltered_decorate|]. intros c3.
  apply unfiltered_andThen; [apply unfiltered_ensureSVGSymbols|]. intros c4.
  apply unfiltered_resolve.
Qed.

End Unfiltered.

Lemma cloneNode_body_root_not_null E options cloneNode_rec node w :
  (cloneNode_body E options cloneNode_rec node true w).1 ≠ Done None.
Proof.
  unfold cloneNode_body, excluded. rewrite andThen_run. simpl.
  destruct (isSupportedElement node); simpl; [|done].
  rewrite andThen_run.
  destruct (cloneSingleElement E cloneNode_rec node w) as [[c1|r|] w1]; [|done..].
  rewrite andThen_run.
  destruct (cloneChildren cloneNode_rec node c1 w1) as [[c2|r|] w2]; [|done..].
  rewrite andThen_run.
  destruct (decorate E options node c2 w2) as [[c3|r|] w3]; [|done..].
  rewrite andThen_run.
  destruct (ensureSVGSymbols E cloneNode_rec c3 w3) as [[c4|r|] w4]; done.
Qed.

(** C6: an invocation with [isRoot] true does not evaluate the filter on
    its node (whatever evaluations are recorded come from the nested
    invocations) and never yields null.  An invocation with [isRoot]
    false on a node the filter rejects evaluates the filter once and
    resolves to null whatever [cloneNode] would do below it, so nothing
    of the subtree is cloned; and a null clone leaves the cloned parent as
    it was. *)
Theorem cloneNode_filter_spares_root_and_drops_rejected
    (E : Env) (options : Options)
    (cloneNode_rec : Node → bool → Promise (option Node))
    (node : Node) (w : World) :
  excluded options node true w = (Done false, w)
  ∧ ((∀ n b, unfiltered (cloneNode_rec n b)) →
     filterLog (cloneNode_body E options cloneNode_rec node true w).2
     = filterLog w)
  ∧ (cloneNode_body E options cloneNode_rec node true w).1 ≠ Done None
  ∧ (∀ fuel : nat, (cloneNode E options (S fuel) node true w).1 ≠ Done None)
  ∧ (∀ f : Node → bool,
       Options.filter options = Some f → f node = false →
       cloneNode_body E options cloneNode_rec node false w
       = (Done None, mkWorld (clock w) (events w ++ [EvFilter node])))
  ∧ (∀ (f : Node → bool) (fuel : nat),
       Options.filter options = Some f → f node = false →
       cloneNode E options (S fuel) node false w
       = (Done None, mkWorld (clock w) (events w ++ [EvFilter node])))
  ∧ (∀ (deferred : Promise Node) (child clonedParent : Node) (w1 w2 : World),
       deferred w = (Done clonedParent, w1) →
       cloneNode_rec child false w1 = (Done None, w2) →
       cloneChildStep cloneNode_rec deferred child w = (Done clonedParent, w2)).
Proof.
  assert (Hdrop : ∀ rec (f : Node → bool),
            Options.filter options = Some f → f node = false →
            cloneNode_body E options rec node false w
            = (Done None, mkWorld (clock w) (events w ++ [EvFilter node]))).
  { intros rec f Hf Hno. unfold cloneNode_body, excluded. rewrite Hf.
    rewrite !andThen_run. simpl. by rewrite Hno. }
  split_and!.
  - reflexivity.
  - intros Hrec. by apply unfiltered_root.
  - apply cloneNode_body_root_not_null.
  - intros fuel. apply cloneNode_body_root_not_null.
  - apply Hdrop.
  - intros f fuel. apply Hdrop.
  - intros deferred child parent w1 w2 Hd Hc. unfold cloneChildStep.
    rewrite andThen_run, Hd, andThen_run, Hc. done.
Qed.

(** With a filter that rejects every node the root is cloned all the
    same, the filter is evaluated on its two children only, and each of
    them yields null. *)
Lemma cloneNode_filter_spares_root_and_drops_rejected_witness :
  filterLog (cloneNode_body (Demo.env []) Demo.rejectAll (fun _ _ => resolve None)
               Demo.article true Demo.start).2
    = filterLog Demo.start
  ∧ (∃ clone : Node,
       cloneNode (Demo.env []) Demo.rejectAll 2 Demo.article true Demo.start
         = (Done (Some clone),
            mkWorld 0 [EvFilter Demo.paragraph; EvFilter (Demo.text "tail")])
       ∧ childNodes clone = [])
  ∧ cloneNode (Demo.env []) Demo.rejectAll 2 Demo.paragraph false Demo.start
    = (Done None, mkWorld 0 [EvFilter Demo.paragraph]).
Proof.
  destruct (cloneNode_filter_spares_root_and_drops_rejected (Demo.env [])
              Demo.rejectAll (fun _ _ => resolve None) Demo.article Demo.start)
    as (_ & Hroot & _).
  destruct (cloneNode_filter_spares_root_and_drops_rejected (Demo.env [])
              Demo.rejectAll (cloneNode (Demo.env []) Demo.rejectAll 1)
              Demo.paragraph Demo.start)
    as (_ & _ & _ & _ & _ & Hdrop & _).
  split_and!.
  - apply Hroot. intros n b w0. reflexivity.
  - eexists. split; [vm_compute; reflexivity|reflexivity].
  - apply (Hdrop (fun _ => false) 1%nat); reflexivity.
Defined.

(** ** Children *)

Lemma foldl_appendClone parent rs :
  foldl appendClone parent rs = foldl appendChild parent (omap id rs).
Proof.
  revert parent. induction rs as [|[c|] rs IH]; intros parent; simpl; auto.
Qed.

Lemma childNodes_foldl_appendChild parent l :
  isSupportedElement parent = true →
  childNodes (foldl appendChild parent l) = childNodes parent ++ l.
Proof.
  revert parent. induction l as [|c l IH]; intros parent Hel; simpl.
  - by rewrite app_nil_r.
  - destruct parent as [|d cs sr fr an]; [done|].
    rewrite IH by done. simpl. by rewrite <- (assoc_L (++)).
Qed.

Lemma cloneChildStep_done cloneNode_rec deferred child w p1 w1 :
  cloneChildStep cloneNode_rec deferred child w = (Done p1, w1)
  ↔ ∃ p0 w0 r,
      deferred w = (Done p0, w0)
      ∧ cloneNode_rec child false w0 = (Done r, w1)
      ∧ p1 = appendClone p0 r.
Proof.
  unfold cloneChildStep. rewrite andThen_run. split.
  - destruct (deferred w) as [[p0|?|] w0]; [|done..].
    rewrite andThen_run.
    destruct (cloneNode_rec child false w0) as [[r|?|] w2] eqn:Hc; [|done..].
    intros [= <- <-]. eauto 10.
  - intros (p0 & w0 & r & -> & Hc & ->).
    by rewrite andThen_run, Hc.
Qed.

Lemma foldl_cloneChildStep_done cloneNode_rec cs deferred w p' w' :
  foldl (cloneChildStep cloneNode_rec) deferred cs w = (Done p', w')
  ↔ ∃ p0 w0 runs,
      deferred w = (Done p0, w0)
      ∧ SequentialRuns cloneNode_rec cs w0 runs w'
      ∧ p' = foldl appendClone p0 (result <$> runs).
Proof.
  revert deferred. induction cs as [|c cs IH]; intros deferred; simpl.
  - split.
    + intros H. exists p', w', []. split_and!; [done|constructor|done].
    + intros (p0 & w0 & runs & Hd & Hruns & ->). inversion Hruns; subst. done.
  - rewrite IH. split.
    + intros (p1 & w1 & runs & Hstep & Hruns & ->).
      apply cloneChildStep_done in Hstep as (p0 & w0 & r & Hd & Hc & ->).
      exists p0, w0, (mkRun w0 r w1 :: runs).
      split_and!; [done|by econstructor|done].
    + intros (p0 & w0 & runs & Hd & Hruns & ->).
      inversion Hruns as [|? ? ? r w1 runs' ? Hc Hrest]; subst.
      exists (appendClone p0 r), w1, runs'. split_and!; [|done..].
      apply cloneChildStep_done. eauto 10.
Qed.

Lemma SequentialRuns_lookup cloneNode_rec cs w runs w' :
  SequentialRuns cloneNode_rec cs w runs w' →
  List.length runs = List.length cs
  ∧ (∀ i child run,
       cs !! i = Some child → runs !! i = Some run →
       cloneNode_rec child false (started run) = (Done (result run), finished run))
  ∧ (∀ run, runs !! 0%nat = Some run → started run = w)
  ∧ (∀ i run next,
       runs !! i = Some run → runs !! S i = Some next →
       started next = finished run).
Proof.
  induction 1 as [w|c cs w r w1 runs w' Hc Hruns (IHlen & IHrun & IHfirst & IHnext)].
  - split_and!; [done|..]; intros;
      match goal with H : [] !! _ = Some _ |- _ => by rewrite lookup_nil in H end.
  - split_and!.
    + simpl. by rewrite IHlen.
    + intros [|i] child run Hi Hr; simpl in *; simplify_eq; [done|eauto].
    + intros run [= <-]. done.
    + intros [|i] run next Hr Hn; simpl in *; simplify_eq.
      * by apply IHfirst.
      * eauto.
Qed.

Lemma omap_result_runs (runs : list Run) :
  omap id (result <$> runs) = omap result runs.
Proof. induction runs as [|[s [c|] f] runs IH]; simpl; [done|by f_equal|done]. Qed.

Lemma cloneChildren_fold cloneNode_rec nativeNode clonedNode cs w :
  isInstanceOf nativeNode HTMLVideoElement = false →
  resolvedChildren nativeNode w = (Done cs, w) →
  cloneChildren cloneNode_rec nativeNode clonedNode w
  = foldl (cloneChildStep cloneNode_rec) (resolve clonedNode) cs w.
Proof.
  intros Hvideo Hres. unfold cloneChildren.
  rewrite andThen_run, Hres, Hvideo. by destruct cs.
Qed.

(** C1 (as amended): for an element that is not a video, [cloneChildren]
    resolves exactly when the clones of its resolved children resolve one
    after the other, each started in the world (hence at the time) in
    which the one before it finished; the nodes it appends to the cloned
    parent are then the clones that are not null, in the order of their
    originals, whatever time each clone took. *)
Theorem cloneChildren_sequential_in_order
    (cloneNode_rec : Node → bool → Promise (option Node))
    (nativeNode clonedNode : Node) (cs : list Node) (w : World) :
  isInstanceOf nativeNode HTMLVideoElement = false →
  resolvedChildren nativeNode w = (Done cs, w) →
  (∀ (cloned' : Node) (w' : World),
     cloneChildren cloneNode_rec nativeNode clonedNode w = (Done cloned', w')
     ↔ ∃ runs : list Run,
         SequentialRuns cloneNode_rec cs w runs w'
         ∧ cloned' = foldl appendChild clonedNode (omap result runs))
  ∧ (∀ (runs : list Run) (w' : World),
       SequentialRuns cloneNode_rec cs w runs w' →
       List.length runs = List.length cs
       ∧ (∀ (i : nat) (child : Node) (run : Run),
            cs !! i = Some child → runs !! i = Some run →
            cloneNode_rec child false (started run)
            = (Done (result run), finished run))
       ∧ (∀ run : Run, runs !! 0%nat = Some run → started run = w)
       ∧ (∀ (i : nat) (run next : Run),
            runs !! i = Some run → runs !! S i = Some next →
            started next = finished run)
       ∧ (isSupportedElement clonedNode = true →
          childNodes (foldl appendChild clonedNode (omap result runs))
          = childNodes clonedNode ++ omap result runs)).
Proof.
  intros Hvideo Hres. split.
  - intros cloned' w'.
    rewrite (cloneChildren_fold _ _ _ cs) by done.
    rewrite foldl_cloneChildStep_done. split.
    + intros (p0 & w0 & runs & [= <- <-] & Hruns & ->).
      exists runs. by rewrite foldl_appendClone, omap_result_runs.
    + intros (runs & Hruns & ->).
      exists clonedNode, w, runs.
      by rewrite foldl_appendClone, omap_result_runs.
  - intros runs w' Hruns.
    destruct (SequentialRuns_lookup _ _ _ _ _ Hruns) as (Hlen & Hrun & Hfirst & Hnext).
    split_and!; try done.
    apply childNodes_foldl_appendChild.
Qed.

(** Three posters, the first the slowest to fetch and the last the
    fastest: the clones are appended in the order of the originals, and
    the whole takes the sum of the three latencies. *)
Lemma cloneChildren_sequential_in_order_witness :
  ∃ (cloned' : Node) (w' : World) (runs : list Run),
    cloneChildren (cloneNode (Demo.env []) Demo.noOptions 2)
      Demo.gallery (shallowClone Demo.gallery) Demo.start
      = (Done cloned', w')
    ∧ SequentialRuns (cloneNode (Demo.env []) Demo.noOptions 2)
        (childNodes Demo.gallery) Demo.start runs w'
    ∧ childNodes cloned' = omap result runs
    ∧ childNodes cloned'
      = [ Demo.img "data:image/png;base64,a-very-large-poster.png";
          Demo.img "data:image/png;base64,bb-poster.png";
          Demo.img "data:image/png;base64,c.png" ]
    ∧ clock w' = 44%nat.
Proof.
  destruct (cloneChildren_sequential_in_order
              (cloneNode (Demo.env []) Demo.noOptions 2)
              Demo.gallery (shallowClone Demo.gallery)
              (childNodes Demo.gallery) Demo.start eq_refl eq_refl)
    as [Hiff Hfacts].
  assert (∃ c w1,
            cloneChildren (cloneNode (Demo.env []) Demo.noOptions 2)
              Demo.gallery (shallowClone Demo.gallery) Demo.start
            = (Done c, w1)
            ∧ childNodes c
              = [ Demo.img "data:image/png;base64,a-very-large-poster.png";
                  Demo.img "data:image/png;base64,bb-poster.png";
                  Demo.img "data:image/png;base64,c.png" ]
            ∧ clock w1 = 44%nat) as (c & w1 & Hrun & Hkids & Hclock).
  { eexists _, _. split; [vm_compute; reflexivity|]. split; reflexivity. }
  destruct (proj1 (Hiff c w1) Hrun) as (runs & Hruns & Hc).
  destruct (Hfacts runs w1 Hruns) as (_ & _ & _ & _ & Happended).
  exists c, w1, runs. split_and!; try done.
  rewrite Hc. by rewrite Happended.
Defined.

(** C1 fails as stated: the children of a video are resolved but none of
    them is cloned, and nothing is appended to the cloned parent. *)
Lemma cloneChildren_skips_the_children_of_a_video :
  resolvedChildren Demo.clip Demo.start = (Done [Demo.source], Demo.start)
  ∧ cloneChildren (cloneNode (Demo.env []) Demo.noOptions 2)
      Demo.clip (shallowClone Demo.clip) Demo.start
    = (Done (shallowClone Demo.clip), Demo.start)
  ∧ childNodes (shallowClone Demo.clip) = [].
Proof. split_and!; reflexivity. Qed.

(** ** SVG symbols *)

Lemma distinct_spec seen ids :
  NoDup (distinct seen ids)
  ∧ ∀ id, id ∈ distinct seen ids ↔ id ∈ ids ∧ id ∉ seen.
Proof.
  revert seen. induction ids as [|x rest IH]; intros seen; simpl.
  - split; [constructor|]. set_solver.
  - case_bool_decide as Hx.
    + destruct (IH seen) as [Hnd Hin]. split; [done|].
      intros id. rewrite Hin. set_solver.
    + destruct (IH (seen ++ [x])) as [Hnd Hin]. split.
      * constructor; [|done]. rewrite Hin. intros [_ Hnot].
        apply Hnot, elem_of_app. right. apply list_elem_of_here.
      * intros id. rewrite !elem_of_cons, Hin, elem_of_app, list_elem_of_singleton.
        destruct (decide (id = x)) as [->|Hne]; naive_solver.
Qed.

Lemma chosen_Some E clone processedDefs use id definition :
  chosen E clone processedDefs use = Some (id, definition)
  ↔ getAttribute "xlink:href" use = Some id
    ∧ missing E clone id = true
    ∧ (id ∉ (processedDefs.*1))
    ∧ documentQuerySelector E id = Some definition.
Proof.
  unfold chosen, processed.
  destruct (getAttribute "xlink:href" use) as [id'|]; [|naive_solver].
  destruct (missing E clone id') eqn:Hm; simpl.
  2:{ split; [done|]. intros ([= ->] & ? & _). congruence. }
  case_bool_decide as Hp; simpl.
  { split; [done|]. intros ([= ->] & _ & ? & _). done. }
  destruct (documentQuerySelector E id') as [def|] eqn:Hd; simpl.
  - split.
    + intros [= -> ->]. done.
    + intros ([= ->] & _ & _ & Hd'). congruence.
  - split; [done|]. intros ([= ->] & _ & _ & Hd'). congruence.
Qed.

Lemma chosen_None E clone processedDefs use :
  chosen E clone processedDefs use = None
  ↔ ∀ id, getAttribute "xlink:href" use = Some id →
      missing E clone id = false ∨ id ∈ (processedDefs.*1).
Proof.
  split.
  - intros Hw id Hid.
    destruct (missing E clone id) eqn:Hm; [|by left]. right.
    destruct (decide (id ∈ (processedDefs.*1))) as [|Hnot]; [done|exfalso].
    assert (is_Some (documentQuerySelector E id)) as [def Hdef].
    { unfold missing in Hm. apply andb_true_iff in Hm as [_ Hm].
      by apply bool_decide_eq_true in Hm. }
    assert (chosen E clone processedDefs use = Some (id, def)) as Hs
      by (by apply chosen_Some).
    congruence.
  - intros Hall.
    destruct (chosen E clone processedDefs use) as [[id def]|] eqn:Hw; [|done].
    apply chosen_Some in Hw as (Hid & Hm & Hnot & _).
    destruct (Hall id Hid); [congruence|done].
Qed.

(** The loop body on one [<use>]: a reference that is not a selector makes
    [querySelector] throw; one that can be looked up is settled as
    [chosen] says. *)
Lemma wanted_run E clone processedDefs use w :
  wanted E clone processedDefs use w
  = if parses E use then (Done (chosen E clone processedDefs use), w)
    else (Rejected "SyntaxError", w).
Proof.
  unfold wanted, parses, chosen, missing, selected.
  destruct (getAttribute "xlink:href" use) as [id|]; [|done].
  destruct (truthy id); simpl; [|done].
  destruct (validSelector E id); [|done].
  rewrite !andThen_run. simpl.
  destruct (querySelector E id clone) as [x|].
  { rewrite bool_decide_false by (intros H; apply H; eauto). simpl.
    by destruct (documentQuerySelector E id). }
  rewrite bool_decide_true by (by intros [? ?]). simpl.
  destruct (documentQuerySelector E id) as [def|].
  - rewrite bool_decide_true by eauto. simpl. by destruct (processed id processedDefs).
  - rewrite bool_decide_false by (by intros [? ?]). done.
Qed.

Lemma collectDefs_cons E cloneNode_rec clone use rest processedDefs w :
  collectDefs E cloneNode_rec clone (use :: rest) processedDefs w
  = if parses E use then
      match chosen E clone processedDefs use with
      | Some (id, definition) =>
          (cloned ← cloneDefinition cloneNode_rec definition;
           collectDefs E cloneNode_rec clone rest (processedDefs ++ [(id, cloned)])) w
      | None => collectDefs E cloneNode_rec clone rest processedDefs w
      end
    else (Rejected "SyntaxError", w).
Proof.
  simpl. rewrite andThen_run, wanted_run.
  destruct (parses E use); [|done].
  by destruct (chosen E clone processedDefs use) as [[id def]|].
Qed.

Lemma DefinitionsCloned_length E cloneNode_rec ids w clones w' :
  DefinitionsCloned E cloneNode_rec ids w clones w' →
  List.length clones = List.length ids.
Proof. induction 1; simpl; congruence. Qed.

Lemma cloneDefinition_done cloneNode_rec definition w cloned w1 :
  cloneDefinition cloneNode_rec definition w = (Done cloned, w1)
  ↔ cloneNode_rec definition true w = (Done (Some cloned), w1).
Proof.
  unfold cloneDefinition. rewrite andThen_run.
  destruct (cloneNode_rec definition true w) as [[[c|]|r|] w2];
    unfold orThrow, resolve, reject; split; congruence.
Qed.

Lemma distinct_skip E clone processedDefs use rest :
  chosen E clone processedDefs use = None →
  distinct (processedDefs.*1)
    (List.filter (missing E clone)
       (omap (getAttribute "xlink:href") (use :: rest)))
  = distinct (processedDefs.*1)
      (List.filter (missing E clone) (omap (getAttribute "xlink:href") rest)).
Proof.
  intros Hw. simpl.
  destruct (getAttribute "xlink:href" use) as [id|] eqn:Hattr; [|done].
  simpl. destruct (missing E clone id) eqn:Hm; [|done]. simpl.
  rewrite bool_decide_true; [done|].
  destruct (proj1 (chosen_None _ _ _ _) Hw id Hattr); [congruence|done].
Qed.

Lemma distinct_take E clone processedDefs use rest id definition :
  chosen E clone processedDefs use = Some (id, definition) →
  distinct (processedDefs.*1)
    (List.filter (missing E clone)
       (omap (getAttribute "xlink:href") (use :: rest)))
  = id :: distinct ((processedDefs.*1) ++ [id])
            (List.filter (missing E clone)
               (omap (getAttribute "xlink:href") rest)).
Proof.
  intros (Hattr & Hm & Hnot & Hdef)%chosen_Some. simpl.
  rewrite Hattr. simpl. rewrite Hm. simpl. by rewrite bool_decide_false.
Qed.

Lemma collectDefs_done E cloneNode_rec clone uses processedDefs w out w' :
  collectDefs E cloneNode_rec clone uses processedDefs w = (Done out, w')
  ↔ Forall (fun use => parses E use = true) uses
    ∧ ∃ clones : list Node,
        let ids :=
          distinct (processedDefs.*1)
            (List.filter (missing E clone)
               (omap (getAttribute "xlink:href") uses)) in
        DefinitionsCloned E cloneNode_rec ids w clones w'
        ∧ out = processedDefs ++ zip ids clones.
Proof.
  revert processedDefs w.
  induction uses as [|use rest IH]; intros processedDefs w.
  - simpl. split.
    + intros [= <- <-]. split; [constructor|].
      exists []. split; [constructor|by rewrite app_nil_r].
    + intros (_ & clones & Hruns & ->). inversion Hruns; subst.
      simpl. by rewrite app_nil_r.
  - rewrite collectDefs_cons.
    destruct (parses E use) eqn:Hp.
    2:{ split; [done|]. intros (Hall & _). inversion Hall; congruence. }
    destruct (chosen E clone processedDefs use) as [[id def]|] eqn:Hw.
    + rewrite (distinct_take _ _ _ _ _ _ _ Hw).
      apply chosen_Some in Hw as (Hattr & Hm & Hnot & Hdef).
      rewrite andThen_run. split.
      * destruct (cloneDefinition cloneNode_rec def w) as [[c|r|] w1] eqn:Hc;
          [|done..].
        apply cloneDefinition_done in Hc.
        intros (Hall & clones & Hruns & ->)%IH.
        rewrite fmap_app in Hruns. simpl in Hruns.
        split; [by constructor|].
        exists (c :: clones). split; [by econstructor|].
        rewrite fmap_app. simpl. by rewrite <- (assoc_L (++)).
      * intros (Hall & clones & Hruns & ->).
        inversion Hruns as [|? ? ? def' c w1 clones' ? Hdef' Hc Hrest]; subst.
        assert (def' = def) as -> by congruence.
        apply cloneDefinition_done in Hc. rewrite Hc.
        apply IH. split; [by inversion Hall|].
        exists clones'. rewrite fmap_app. simpl.
        split; [done|]. by rewrite <- (assoc_L (++)).
    + rewrite (distinct_skip _ _ _ _ _ Hw). rewrite IH. split.
      * intros (Hall & Hrest). split; [by constructor|done].
      * intros (Hall & Hrest). split; [by inversion Hall|done].
Qed.

Lemma ensureSVGSymbols_done E cloneNode_rec clone w clone' w' :
  ensureSVGSymbols E cloneNode_rec clone w = (Done clone', w')
  ↔ wellFormed E clone
    ∧ ∃ clones : list Node,
        DefinitionsCloned E cloneNode_rec (needed E clone) w clones w'
        ∧ clone' = match clones with
                   | [] => clone
                   | _ :: _ => appendChild clone (symbolContainer clones)
                   end.
Proof.
  unfold ensureSVGSymbols, needed, referenced, wellFormed.
  destruct (querySelectorAll E "use" clone) as [|use uses] eqn:Huses.
  - simpl. split.
    + intros [= <- <-]. split; [constructor|]. exists []. split; [constructor|done].
    + intros (_ & clones & Hruns & ->). by inversion Hruns; subst.
  - change (List.length (use :: uses) =? 0)%nat with false. cbv iota.
    rewrite andThen_run. split.
    + destruct (collectDefs E cloneNode_rec clone (use :: uses) [] w)
        as [[defs|r|] w1] eqn:Hc; [|done..].
      apply collectDefs_done in Hc as (Hall & clones & Hruns & ->).
      simpl in Hruns |- *.
      pose proof (DefinitionsCloned_length _ _ _ _ _ _ Hruns) as Hlen.
      rewrite snd_zip by lia.
      intros Hres. split; [done|]. exists clones. split.
      * by destruct clones; injection Hres as <- <-.
      * by destruct clones; injection Hres as <- <-.
    + intros (Hall & clones & Hruns & ->).
      pose proof (DefinitionsCloned_length _ _ _ _ _ _ Hruns) as Hlen.
      assert (collectDefs E cloneNode_rec clone (use :: uses) [] w
              = (Done (zip (distinct []
                         (List.filter (missing E clone)
                            (omap (getAttribute "xlink:href") (use :: uses))))
                         clones), w')) as ->.
      { apply collectDefs_done. split; [done|]. exists clones. simpl. done. }
      rewrite snd_zip by lia. by destruct clones.
Qed.

Lemma missing_true E clone id :
  missing E clone id = true
  ↔ id ≠ "" ∧ querySelector E id clone = None
    ∧ is_Some (documentQuerySelector E id).
Proof.
  unfold missing. rewrite !andb_true_iff, !bool_decide_eq_true, truthy_true.
  destruct (querySelector E id clone) as [x|]; split.
  - intros [[_ Hx] _]. destruct Hx. eauto.
  - intros (_ & ? & _). done.
  - intros [[? _] ?]. done.
  - intros (? & _ & ?). split_and!; [done| |done]. by intros [? ?].
Qed.

Lemma needed_spec E clone :
  NoDup (needed E clone)
  ∧ ∀ id, id ∈ needed E clone
          ↔ id ∈ referenced E clone ∧ id ≠ ""
            ∧ querySelector E id clone = None
            ∧ is_Some (documentQuerySelector E id).
Proof.
  unfold needed.
  destruct (distinct_spec [] (List.filter (missing E clone) (referenced E clone)))
    as [Hnd Hin].
  split; [done|]. intros id.
  rewrite Hin, list_elem_of_In, List.filter_In, <- list_elem_of_In, missing_true.
  set_solver.
Qed.

Lemma wellFormed_forallb E clone :
  forallb (parses E) (querySelectorAll E "use" clone) = true ↔ wellFormed E clone.
Proof.
  unfold wellFormed. induction (querySelectorAll E "use" clone) as [|use uses IH].
  - split; [constructor|done].
  - simpl. rewrite andb_true_iff, IH. split.
    + intros [? ?]. by constructor.
    + intros Hall. by inversion Hall.
Qed.

Lemma collectDefs_nothing_needed E cloneNode_rec clone uses processedDefs w :
  distinct (processedDefs.*1)
    (List.filter (missing E clone) (omap (getAttribute "xlink:href") uses)) = [] →
  collectDefs E cloneNode_rec clone uses processedDefs w
  = if forallb (parses E) uses then (Done processedDefs, w)
    else (Rejected "SyntaxError", w).
Proof.
  induction uses as [|use rest IH]; intros Hnil; [done|].
  rewrite collectDefs_cons. simpl forallb.
  destruct (parses E use); [|done]. simpl.
  destruct (chosen E clone processedDefs use) as [[id def]|] eqn:Hw.
  - by rewrite (distinct_take _ _ _ _ _ _ _ Hw) in Hnil.
  - rewrite (distinct_skip _ _ _ _ _ Hw) in Hnil. by apply IH.
Qed.

(** With nothing to bring in, [ensureSVGSymbols] clones nothing: it
    returns the clone as it is, or fails on a reference that is not a
    selector. *)
Lemma ensureSVGSymbols_nothing_needed E cloneNode_rec clone w :
  needed E clone = [] →
  ensureSVGSymbols E cloneNode_rec clone w
  = if forallb (parses E) (querySelectorAll E "use" clone) then (Done clone, w)
    else (Rejected "SyntaxError", w).
Proof.
  unfold needed, referenced, ensureSVGSymbols. intros Hnil.
  destruct (querySelectorAll E "use" clone) as [|use uses] eqn:Huses; [done|].
  change (List.length (use :: uses) =? 0)%nat with false. cbv iota.
  rewrite andThen_run, (collectDefs_nothing_needed E cloneNode_rec clone _ [] w Hnil).
  by destruct (forallb (parses E) (use :: uses)).
Qed.




(** C10 (as amended): a [<use>] without an [xlink:href] attribute is passed
    over by the loop, whatever its [href] says; and when no [<use>] of
    the clone has an [xlink:href] that is non-empty, names nothing in the
    clone and names a definition in the document, nothing is cloned: the
    clone is returned as it is if every non-empty [xlink:href] parses as
    a selector, and the run is rejected with the SyntaxError of
    [querySelector] if one does not. *)
Theorem ensureSVGSymbols_reads_only_xlink_href
    (E : Env) (cloneNode_rec : Node → bool → Promise (option Node))
    (clone : Node) :
  (∀ (use : Node) (rest : list Node) (processedDefs : list (string * Node)),
     getAttribute "xlink:href" use = None →
     collectDefs E cloneNode_rec clone (use :: rest) processedDefs
     = collectDefs E cloneNode_rec clone rest processedDefs)
  ∧ ((∀ (use : Node) (id : string),
        use ∈ querySelectorAll E "use" clone →
        getAttribute "xlink:href" use = Some id →
        id = "" ∨ is_Some (querySelector E id clone)
        ∨ documentQuerySelector E id = None) →
     ∀ w : World,
       (wellFormed E clone →
        ensureSVGSymbols E cloneNode_rec clone w = (Done clone, w))
       ∧ (¬ wellFormed E clone →
          ensureSVGSymbols E cloneNode_rec clone w
          = (Rejected "SyntaxError", w))).
Proof.
  split.
  - intros use rest processedDefs Hattr. simpl. unfold wanted. rewrite Hattr.
    reflexivity.
  - intros Hnone w.
    assert (needed E clone = []) as Hnil.
    { destruct (needed E clone) as [|id ids] eqn:Hneeded; [done|exfalso].
      destruct (needed_spec E clone) as [_ Hin].
      destruct (proj1 (Hin id)) as (Href & Hid & Hq & Hdoc).
      { rewrite Hneeded. set_solver. }
      unfold referenced in Href. apply list_elem_of_omap in Href as (use & Huse & Hattr).
      destruct (Hnone use id Huse Hattr) as [?|[Hx|Hx]]; [done| |].
      - rewrite Hq in Hx. by destruct Hx.
      - rewrite Hx in Hdoc. by destruct Hdoc. }
    rewrite (ensureSVGSymbols_nothing_needed _ _ _ _ Hnil).
    destruct (forallb (parses E) (querySelectorAll E "use" clone)) eqn:Hall.
    + split; [done|]. intros Hnot. destruct Hnot. by apply wellFormed_forallb.
    + split; [|done]. intros Hwf%wellFormed_forallb. congruence.
Qed.



(** A [<use>] that names the document's symbol through [href] only: the
    clone is returned as it is. *)
Lemma ensureSVGSymbols_reads_only_xlink_href_witness :
  getAttribute "href" Demo.modernUse = Some "#icon"
  ∧ is_Some (documentQuerySelector (Demo.env [Demo.sprite]) "#icon")
  ∧ ensureSVGSymbols (Demo.env [Demo.sprite])
      (cloneNode (Demo.env [Demo.sprite]) Demo.noOptions 3)
      Demo.oneModernUse Demo.start
    = (Done Demo.oneModernUse, Demo.start).
Proof.
  split; [reflexivity|]. split; [by eexists|].
  apply (proj2 (ensureSVGSymbols_reads_only_xlink_href
                  (Demo.env [Demo.sprite])
                  (cloneNode (Demo.env [Demo.sprite]) Demo.noOptions 3)
                  Demo.oneModernUse)).
  - intros use id Huse Hattr.
    apply list_elem_of_filter in Huse as [_ Huse]. simpl in Huse.
    apply elem_of_cons in Huse as [->|Huse]; [discriminate Hattr|].
    by apply elem_of_nil in Huse.
  - apply wellFormed_forallb. reflexivity.
Defined.

(** C10 fails as stated: the only [<use>] references a symbol of another
    file, so no [xlink:href] names a definition of the document; yet the
    clone is not returned: [querySelector] throws on the reference. *)
Lemma external_reference_is_not_passed_over :
  (∀ (use : Node) (id : string),
     use ∈ querySelectorAll (Demo.env [Demo.sprite]) "use" Samples.oneExternalUse →
     getAttribute "xlink:href" use = Some id →
     documentQuerySelector (Demo.env [Demo.sprite]) id = None)
  ∧ ensureSVGSymbols (Demo.env [Demo.sprite])
      (cloneNode (Demo.env [Demo.sprite]) Demo.noOptions 3)
      Samples.oneExternalUse Demo.start
    = (Rejected "SyntaxError", Demo.start).
Proof.
  split; [|vm_compute; reflexivity].
  intros use id Huse Hattr.
  apply list_elem_of_filter in Huse as [_ Huse]. simpl in Huse.
  apply elem_of_cons in Huse as [->|Huse]; [|by apply elem_of_nil in Huse].
  injection Hattr as <-. vm_compute. reflexivity.
Qed.

(** ** Iframes in the whole pipeline *)

(** X9: past [cloneIFrameElement], [cloneChildren] reads [contentDocument]
    once more, outside any [try]: when that access throws, the clone of
    the iframe as a whole is rejected with the error of the access, as a
    root, whatever the options and with nothing called or recorded. *)
Lemma cloneNode_rejects_when_contentDocument_throws
    (E : Env) (options : Options) (fuel : nat)
    (d : ElementData) (cs : list Node) (sr : option (list Node)) (an : list Node)
    (w : World) :
  interface d = HTMLIFrameElement →
  cloneNode E options (S fuel) (Element d cs sr FrameThrows an) true w
  = (Rejected "SecurityError", w).
Proof.
  intros Hd. simpl. unfold cloneNode_body, excluded.
  rewrite andThen_run. simpl.
  unfold cloneSingleElement, isInstanceOf, interfaceOf. simpl. rewrite Hd. simpl.
  rewrite !andThen_run. unfold cloneIFrameElement.
  rewrite andThen_run, tryCatch_run, andThen_run. simpl.
  unfold cloneChildren, resolvedChildren, isInstanceOf, interfaceOf. simpl.
  rewrite Hd. rewrite andb_false_r. simpl. reflexivity.
Qed.

(** The clone of the body, which stands for the iframe, already holds the
    clones of the body's children; [cloneChildren] then resolves the
    children of the iframe to those of the body and appends their clones
    once more. *)
Lemma accessible_iframe_body_children_are_appended_twice :
  ∃ clone : Node,
    (cloneNode (Demo.env []) Demo.noOptions 4 Demo.frame true Demo.start).1
      = Done (Some clone)
    ∧ tagName <$> data clone = Some "body"
    ∧ childNodes clone = [Demo.paragraph; Demo.paragraph].
Proof. eexists. split; [vm_compute; reflexivity|]. split; reflexivity. Qed.

(** * More of the cloner *)

(** ** Children: what is kept and when the fold stops *)

Lemma resolvedChildren_world nativeNode w :
  (resolvedChildren nativeNode w).2 = w.
Proof.
  unfold resolvedChildren.
  destruct (isSlotElement nativeNode && isInstanceOf nativeNode HTMLSlotElement);
    [done|].
  destruct (isInstanceOf nativeNode HTMLIFrameElement); [|done].
  rewrite andThen_run. unfold contentBody.
  by destruct (contentDocument nativeNode) as [| |[b|]].
Qed.

Lemma foldl_appendChild_withChildNodes parent l :
  foldl appendChild parent l = withChildNodes (fun cs => cs ++ l) parent.
Proof.
  revert parent. induction l as [|c l IH]; intros parent; simpl.
  - destruct parent; simpl; by rewrite ?app_nil_r.
  - rewrite IH. destruct parent; simpl; [done|].
    by rewrite <- (assoc_L (++)).
Qed.

Lemma SequentialRuns_length cloneNode_rec cs w runs w' :
  SequentialRuns cloneNode_rec cs w runs w' → List.length runs = List.length cs.
Proof. induction 1; simpl; congruence. Qed.

Lemma length_omap_le {A B} (f : A → option B) (l : list A) :
  (List.length (omap f l) ≤ List.length l)%nat.
Proof.
  induction l as [|x l IH]; [done|].
  change (omap f (x :: l)) with (match f x with Some y => y :: omap f l | None => omap f l end).
  destruct (f x); simpl in *; lia.
Qed.

(** X1: [cloneChildren] only ever appends.  Whatever the original is (a
    video and an element without children included), a run that resolves
    returns the clone it was given with nodes added behind the child
    nodes that clone already had, at most one for each resolved child of
    the original; the data of the clone and the nodes it held are
    returned as they were, and resolving the children changes nothing in
    the world. *)
Theorem cloneChildren_only_appends
    (cloneNode_rec : Node → bool → Promise (option Node))
    (nativeNode clonedNode : Node) (w : World) (cloned' : Node) (w' : World) :
  cloneChildren cloneNode_rec nativeNode clonedNode w = (Done cloned', w') →
  ∃ (cs appended : list Node),
    resolvedChildren nativeNode w = (Done cs, w)
    ∧ cloned' = withChildNodes (fun kept => kept ++ appended) clonedNode
    ∧ (List.length appended ≤ List.length cs)%nat.
Proof.
  unfold cloneChildren. intros Hrun.
  apply andThen_done_inv in Hrun as (cs & w1 & Hres & Hrun).
  pose proof (resolvedChildren_world nativeNode w) as Hw.
  rewrite Hres in Hw. simpl in Hw. subst w1.
  exists cs. destruct ((List.length cs =? 0)%nat || isInstanceOf nativeNode HTMLVideoElement).
  - injection Hrun as <- <-. exists []. split_and!; [done| |simpl; lia].
    destruct clonedNode; simpl; by rewrite ?app_nil_r.
  - apply foldl_cloneChildStep_done in Hrun as (p0 & w0 & runs & [= <- <-] & Hruns & ->).
    exists (omap result runs). split_and!; [done| |].
    + by rewrite foldl_appendClone, omap_result_runs, foldl_appendChild_withChildNodes.
    + rewrite <- (SequentialRuns_length _ _ _ _ _ Hruns). apply length_omap_le.
Qed.

Lemma foldl_cloneChildStep_rejected cloneNode_rec cs (deferred : Promise Node) w r w' :
  deferred w = (Rejected r, w') →
  foldl (cloneChildStep cloneNode_rec) deferred cs w = (Rejected r, w').
Proof.
  revert deferred. induction cs as [|c cs IH]; intros deferred Hd; simpl; [done|].
  apply IH. unfold cloneChildStep. by rewrite andThen_run, Hd.
Qed.

Lemma foldl_cloneChildStep_pending cloneNode_rec cs (deferred : Promise Node) w w' :
  deferred w = (Pending, w') →
  foldl (cloneChildStep cloneNode_rec) deferred cs w = (Pending, w').
Proof.
  revert deferred. induction cs as [|c cs IH]; intros deferred Hd; simpl; [done|].
  apply IH. unfold cloneChildStep. by rewrite andThen_run, Hd.
Qed.

Lemma cloneChildStep_run cloneNode_rec (deferred : Promise Node) child w :
  cloneChildStep cloneNode_rec deferred child w
  = match deferred w with
    | (Done p, w0) =>
        match cloneNode_rec child false w0 with
        | (Done r, w1) => (Done (appendClone p r), w1)
        | (Rejected reason, w1) => (Rejected reason, w1)
        | (Pending, w1) => (Pending, w1)
        end
    | (Rejected reason, w0) => (Rejected reason, w0)
    | (Pending, w0) => (Pending, w0)
    end.
Proof.
  unfold cloneChildStep. rewrite andThen_run.
  destruct (deferred w) as [[p|?|] w0]; [|done..].
  rewrite andThen_run. by destruct (cloneNode_rec child false w0) as [[r|?|] w1].
Qed.

(** X2: the reduction stops at the first child whose clone does not
    resolve.  When the clones of the children before it resolved one
    after the other and the clone of the next child is rejected, or never
    settles, [cloneChildren] is rejected with that very reason, or never
    settles, in the world that clone left behind: no child after it is
    cloned and nothing of what was appended so far is returned. *)
Theorem cloneChildren_stops_at_first_failure
    (cloneNode_rec : Node → bool → Promise (option Node))
    (nativeNode clonedNode : Node) (w : World)
    (before : list Node) (child : Node) (after : list Node)
    (runs : list Run) (w1 w2 : World) (o : Outcome (option Node)) :
  isInstanceOf nativeNode HTMLVideoElement = false →
  resolvedChildren nativeNode w = (Done (before ++ child :: after), w) →
  SequentialRuns cloneNode_rec before w runs w1 →
  cloneNode_rec child false w1 = (o, w2) →
  (∀ r, o ≠ Done r) →
  cloneChildren cloneNode_rec nativeNode clonedNode w
  = (match o with Rejected reason => Rejected reason | _ => Pending end, w2).
Proof.
  intros Hvideo Hres Hruns Hchild Ho.
  rewrite (cloneChildren_fold _ _ _ (before ++ child :: after)) by done.
  rewrite foldl_app. simpl.
  assert (cloneChildStep cloneNode_rec
            (foldl (cloneChildStep cloneNode_rec) (resolve clonedNode) before)
            child w
          = (match o with Rejected reason => Rejected reason | _ => Pending end, w2))
    as Hstep.
  { rewrite cloneChildStep_run.
    assert (foldl (cloneChildStep cloneNode_rec) (resolve clonedNode) before w
            = (Done (foldl appendClone clonedNode (result <$> runs)), w1)) as ->.
    { apply foldl_cloneChildStep_done. eauto 10. }
    rewrite Hchild. destruct o; [by destruct (Ho a)|done..]. }
  destruct o as [a|reason|]; [by destruct (Ho a)| |].
  - by apply foldl_cloneChildStep_rejected.
  - by apply foldl_cloneChildStep_pending.
Qed.

(** ** Children: which list is walked *)

Lemma cloneChildren_of_resolved cloneNode_rec nativeNode clonedNode w :
  cloneChildren cloneNode_rec nativeNode clonedNode w
  = match resolvedChildren nativeNode w with
    | (Done cs, w1) =>
        if (List.length cs =? 0)%nat || isInstanceOf nativeNode HTMLVideoElement
        then (Done clonedNode, w1)
        else foldl (cloneChildStep cloneNode_rec) (resolve clonedNode) cs w1
    | (Rejected r, w1) => (Rejected r, w1)
    | (Pending, w1) => (Pending, w1)
    end.
Proof.
  unfold cloneChildren. rewrite andThen_run.
  destruct (resolvedChildren nativeNode w) as [[cs|r|] w1]; [|done..].
  by destruct ((List.length cs =? 0)%nat || isInstanceOf nativeNode HTMLVideoElement).
Qed.


(** ** Inline styles of the clone: only the style changes *)

Lemma foldl_setStyle (value priority : string → string) names n st :
  styleOf n = Some st →
  foldl (fun cloned name => setStyle name (value name) (priority name) cloned) n names
  = withData
      (setData_style
         (Some (foldl (fun s name => setProperty name (value name) (priority name) s)
                  st names))) n.
Proof.
  revert n st. induction names as [|name names IH]; intros n st Hst; simpl.
  - destruct n as [|d cs sr fr an]; [done|]. unfold styleOf in Hst. simpl in *.
    destruct d; simpl in *. by subst.
  - rewrite (IH _ (setProperty name (value name) (priority name) st)).
    + destruct n as [|d cs sr fr an]; [done|]. simpl. by destruct d.
    + by rewrite styleOf_setStyle, Hst.
Qed.

Lemma cloneCSSStyle_only_style E nativeNode clonedNode :
  ∃ st, cloneCSSStyle E nativeNode clonedNode
        = withData (setData_style st) clonedNode.
Proof.
  assert (Hsame : ∀ n : Node, n = withData (setData_style (styleOf n)) n).
  { intros [|d cs sr fr an]; [done|]. unfold styleOf. simpl. by destruct d. }
  unfold cloneCSSStyle.
  destruct (styleOf clonedNode) as [before|] eqn:Hst.
  - destruct (truthy (cssText (getComputedStyle E nativeNode))).
    + eexists. destruct clonedNode as [|d cs sr fr an]; [done|]. simpl.
      by destruct d.
    + eexists.
      by apply (foldl_setStyle
                  (copiedValue E nativeNode clonedNode (getComputedStyle E nativeNode))
                  (fun name => getPropertyPriority name
                                 (declarations (getComputedStyle E nativeNode)))).
  - exists None. rewrite (Hsame clonedNode) at 1. by rewrite Hst.
Qed.

(** ** The first stage: canvas, video and plain elements *)

Lemma external_answer {A} e reason (answer : nat * option A) w :
  external e reason answer w
  = (match answer.2 with Some a => Done a | None => Rejected reason end,
     mkWorld (clock w + answer.1) (events w ++ [e])).
Proof. unfold external. by destruct (answer.2). Qed.

Lemma isInstanceOf_two node i j :
  isInstanceOf node i = true → isInstanceOf node j = true → i = j.
Proof.
  unfold isInstanceOf. intros Hi%bool_decide_eq_true Hj%bool_decide_eq_true.
  congruence.
Qed.

(** X6: what the first stage asks of its collaborators, for a node that
    is not an iframe.  The resource resolver is called for the poster of
    a video that has no current source (with the empty string when there
    is no poster) and never otherwise; a plain element and a blank
    canvas are copied without any call, in no time.  As the resolver
    and [createImage] settle, so does the stage.  It is rejected only
    when [toDataURL] threw on a tainted canvas (a canvas element, or the
    canvas on which the frame of a video with a current source was
    drawn), when the resolver failed on that poster, or when
    [createImage] failed on a URL it was given; a tainted canvas is
    rejected before anything is called. *)
Theorem cloneSingleElement_collaborator_calls
    (E : Env) (cloneNode_rec : Node → bool → Promise (option Node))
    (node : Node) (w : World) :
  isInstanceOf node HTMLIFrameElement = false →
  let canvas := isInstanceOf node HTMLCanvasElement in
  let video := isInstanceOf node HTMLVideoElement in
  let playing := truthy (from_option currentSrc "" (data node)) in
  let posterUrl := from_option poster "" (data node) in
  let run := cloneSingleElement E cloneNode_rec node w in
  ∃ evs : list Event,
    events run.2 = events w ++ evs
    (* the resolver is asked for the poster of a video that shows no frame,
       and for nothing else *)
    ∧ resolvedUrls evs = (if video && negb playing then [posterUrl] else [])
    (* a plain element and a blank canvas are copied without any call *)
    ∧ (canvas = false → video = false → run = (Done (shallowClone node), w))
    ∧ (canvas = true → data node ≫= canvasData = Some "data:," →
       run = (Done (shallowClone node), w))
    (* a tainted canvas: toDataURL throws before anything is called *)
    ∧ (canvas = true → data node ≫= canvasData = None →
       run = (Rejected "SecurityError", w))
    ∧ (video = true → playing = true → captureFrame E node = None →
       run = (Rejected "SecurityError", w))
    (* the stage settles *)
    ∧ run.1 ≠ Pending
    (* and is rejected for one of three reasons *)
    ∧ (∀ reason, run.1 = Rejected reason →
         (reason = "SecurityError"
          ∧ ((canvas = true ∧ data node ≫= canvasData = None)
             ∨ (video = true ∧ playing = true ∧ captureFrame E node = None)))
         ∨ (reason = "ResourceFetchError" ∧ video = true ∧ playing = false
            ∧ (resourceToDataURL E posterUrl (getMimeType E posterUrl)).2 = None)
         ∨ (reason = "ImageLoadError"
            ∧ ∃ url, EvCreateImage url ∈ evs ∧ (createImage E url).2 = None)).
Proof.
  intros Hframe canvas video playing posterUrl run.
  subst run. unfold cloneSingleElement. fold canvas video. rewrite Hframe.
  destruct canvas eqn:Hcanvas.
  { assert (video = false) as ->.
    { subst video. destruct (isInstanceOf node HTMLVideoElement) eqn:Hv; [|done].
      subst canvas. by pose proof (isInstanceOf_two node _ _ Hcanvas Hv). }
    unfold cloneCanvasElement, toDataURL. rewrite andThen_run.
    destruct (data node ≫= canvasData) as [dataURL|] eqn:Hdata; simpl.
    2:{ exists []. rewrite app_nil_r. split_and!; try done.
        intros reason [= <-]. left. split; [done|]. by left. }
    destruct (String.eqb_spec dataURL "data:,") as [Hblank|Hdrawn].
    - exists []. rewrite app_nil_r. split_and!; try done.
    - unfold createImageOf. rewrite external_answer.
      exists [EvCreateImage dataURL].
      destruct (createImage E dataURL) as [lat [img|]] eqn:Himg; simpl.
      + split_and!; try done. by intros _ [= ?].
      + split_and!; try done; [by intros _ [= ?]|].
        intros reason [= <-]. right. right. split; [done|].
        eexists. split; [by apply list_elem_of_singleton|]. by rewrite Himg. }
  destruct video eqn:Hvideo.
  2:{ exists []. rewrite app_nil_r. split_and!; done. }
  unfold cloneVideoElement. fold playing posterUrl.
  destruct playing eqn:Hplaying.
  - rewrite andThen_run.
    destruct (captureFrame E node) as [dataURL|] eqn:Hframe'; simpl.
    2:{ exists []. rewrite app_nil_r. split_and!; try done.
        intros reason [= <-]. left. split; [done|]. by right. }
    unfold createImageOf. rewrite external_answer.
    exists [EvCreateImage dataURL].
    destruct (createImage E dataURL) as [lat [img|]] eqn:Himg; simpl.
    + split_and!; try done.
    + split_and!; try done. intros reason [= <-]. right. right. split; [done|].
      eexists. split; [by apply list_elem_of_singleton|]. by rewrite Himg.
  - rewrite andThen_run. unfold Clone.resourceToDataURLOf. rewrite external_answer.
    destruct (resourceToDataURL E posterUrl (getMimeType E posterUrl))
      as [lat [dataURL|]] eqn:Hres; simpl.
    + unfold createImageOf. rewrite external_answer. simpl.
      exists [EvResource posterUrl (getMimeType E posterUrl); EvCreateImage dataURL].
      destruct (createImage E dataURL) as [lat' [img|]] eqn:Himg; simpl.
      * split_and!; try done. by rewrite <- app_assoc.
      * split_and!; try done; [by rewrite <- app_assoc|].
        intros reason [= <-]. right. right. split; [done|].
        exists dataURL. split; [|by rewrite Himg].
        apply elem_of_cons; right. by apply list_elem_of_singleton.
    + exists [EvResource posterUrl (getMimeType E posterUrl)].
      split_and!; try done. intros reason [= <-]. right. left. done.
Qed.

(** X7: for a video the first two stages of [cloneNode] amount to
    [cloneVideoElement] alone: the image made from the current frame or
    from the poster is returned as it is (or the failure of making it),
    and the recursive clone is never run on a child of the video. *)
Theorem video_is_cloned_without_its_children
    (E : Env) (cloneNode_rec : Node → bool → Promise (option Node))
    (video : Node) (w : World) :
  isInstanceOf video HTMLVideoElement = true →
  (clonedNode ← cloneSingleElement E cloneNode_rec video;
   cloneChildren cloneNode_rec video clonedNode) w
  = cloneVideoElement E video w.
Proof.
  intros Hvideo.
  rewrite andThen_run.
  assert (Hstage : cloneSingleElement E cloneNode_rec video = cloneVideoElement E video).
  { unfold cloneSingleElement. rewrite Hvideo.
    destruct (isInstanceOf video HTMLCanvasElement) eqn:Hcanvas; [|done].
    by pose proof (isInstanceOf_two video _ _ Hcanvas Hvideo). }
  rewrite Hstage.
  destruct (cloneVideoElement E video w) as [[image|reason|] w1]; [|done..].
  rewrite cloneChildren_of_resolved.
  unfold resolvedChildren.
  destruct (isInstanceOf video HTMLSlotElement) eqn:Hslot.
  { by pose proof (isInstanceOf_two video _ _ Hslot Hvideo). }
  destruct (isInstanceOf video HTMLIFrameElement) eqn:Hframe.
  { by pose proof (isInstanceOf_two video _ _ Hframe Hvideo). }
  rewrite andb_false_r. simpl. by rewrite Hvideo, orb_true_r.
Qed.

(** X8: the children of a readable iframe body are cloned twice.
    [cloneIFrameElement] returns the finished clone of the body; then
    [cloneChildren], which resolves the children of the iframe to those
    of the body, clones each of them once more, one after the other, and
    appends the clones that are not null to that finished clone. *)
Theorem iframe_body_children_are_cloned_again
    (E : Env) (cloneNode_rec : Node → bool → Promise (option Node))
    (iframe body bodyClone : Node) (w w1 w2 : World) (runs : list Run) :
  isInstanceOf iframe HTMLIFrameElement = true →
  contentDocument iframe = FrameDocument (Some body) →
  cloneNode_rec body true w = (Done (Some bodyClone), w1) →
  SequentialRuns cloneNode_rec (childNodes body) w1 runs w2 →
  (clonedNode ← cloneSingleElement E cloneNode_rec iframe;
   cloneChildren cloneNode_rec iframe clonedNode) w
  = (Done (foldl appendChild bodyClone (omap result runs)), w2).
Proof.
  intros Hframe Hdoc Hbody Hruns.
  rewrite andThen_run.
  assert (Hstage : cloneSingleElement E cloneNode_rec iframe w = (Done bodyClone, w1)).
  { unfold cloneSingleElement. rewrite Hframe.
    destruct (isInstanceOf iframe HTMLCanvasElement) eqn:Hcanvas.
    { by pose proof (isInstanceOf_two iframe _ _ Hcanvas Hframe). }
    destruct (isInstanceOf iframe HTMLVideoElement) eqn:Hvideo.
    { by pose proof (isInstanceOf_two iframe _ _ Hvideo Hframe). }
    unfold cloneIFrameElement. rewrite andThen_run, tryCatch_run, andThen_run.
    unfold contentBody. rewrite Hdoc. simpl. rewrite andThen_run, Hbody. done. }
  rewrite Hstage.
  assert (Hres : resolvedChildren iframe w1 = (Done (childNodes body), w1)).
  { unfold resolvedChildren. rewrite Hframe.
    destruct (isInstanceOf iframe HTMLSlotElement) eqn:Hslot.
    { by pose proof (isInstanceOf_two iframe _ _ Hslot Hframe). }
    rewrite andb_false_r. rewrite andThen_run. unfold contentBody. by rewrite Hdoc. }
  rewrite (cloneChildren_fold _ _ _ (childNodes body)); [|by eapply isInstanceOf_exclusive|done].
  apply foldl_cloneChildStep_done.
  exists bodyClone, w1, runs. split_and!; [done|done|].
  by rewrite foldl_appendClone, omap_result_runs.
Qed.

(** ** Termination *)







Section Structural.

Context (E : Env) (options : Options).
Hypothesis nothing_needed : ∀ clone, needed E clone = [].




End Structural.


(** ** Symbol definitions that fail to clone *)

Lemma cloneDefinition_failed rec definition w o w1 :
  rec definition true w = (o, w1) →
  (∀ c, o ≠ Done (Some c)) →
  cloneDefinition rec definition w = (failedDefinition o, w1).
Proof.
  intros Hrun Hfail. unfold cloneDefinition. rewrite andThen_run, Hrun.
  destruct o as [[c|]|r|]; [by destruct (Hfail c)|done..].
Qed.

Lemma collectDefs_failed E rec clone uses :
  ∀ processedDefs w before id after clones w1 definition o w2,
    Forall (fun use => parses E use = true) uses →
    distinct (processedDefs.*1)
      (List.filter (missing E clone) (omap (getAttribute "xlink:href") uses))
    = before ++ id :: after →
    DefinitionsCloned E rec before w clones w1 →
    documentQuerySelector E id = Some definition →
    rec definition true w1 = (o, w2) →
    (∀ c, o ≠ Done (Some c)) →
    collectDefs E rec clone uses processedDefs w = (failedDefinition o, w2).
Proof.
  induction uses as [|use rest IH];
    intros processedDefs w before id after clones w1 definition o w2
      Hall Hids Hruns Hdef Hrun Hfail.
  { simpl in Hids. by destruct before. }
  rewrite collectDefs_cons.
  inversion Hall as [|? ? Hp Hrest]; subst. rewrite Hp.
  destruct (chosen E clone processedDefs use) as [[id' def']|] eqn:Hw.
  - rewrite (distinct_take _ _ _ _ _ _ _ Hw) in Hids.
    apply chosen_Some in Hw as (Hattr & Hm & Hnot & Hdef').
    rewrite andThen_run.
    destruct before as [|b before].
    + simpl in Hids. injection Hids as -> _.
      inversion Hruns; subst.
      assert (def' = definition) as -> by congruence.
      rewrite (cloneDefinition_failed _ _ _ o w2) by done.
      by destruct o as [[c|]|r|].
    + simpl in Hids. injection Hids as -> Hids.
      inversion Hruns as [|? ? ? defb c w' clones' ? Hdefb Hc Hruns']; subst.
      assert (defb = def') as -> by congruence.
      apply cloneDefinition_done in Hc. rewrite Hc.
      eapply IH; [exact Hrest| |exact Hruns'|exact Hdef|exact Hrun|exact Hfail].
      by rewrite fmap_app.
  - rewrite (distinct_skip _ _ _ _ _ Hw) in Hids.
    eapply IH; [exact Hrest|exact Hids|exact Hruns|exact Hdef|exact Hrun|exact Hfail].
Qed.

Lemma ensureSVGSymbols_failed_definition
    (E : Env) (cloneNode_rec : Node → bool → Promise (option Node))
    (clone : Node) (w : World)
    (before : list string) (id : string) (after : list string)
    (clones : list Node) (w1 : World) (definition : Node)
    (o : Outcome (option Node)) (w2 : World) :
  wellFormed E clone →
  needed E clone = before ++ id :: after →
  DefinitionsCloned E cloneNode_rec before w clones w1 →
  documentQuerySelector E id = Some definition →
  cloneNode_rec definition true w1 = (o, w2) →
  (∀ c, o ≠ Done (Some c)) →
  ensureSVGSymbols E cloneNode_rec clone w = (failedDefinition o, w2).
Proof.
  intros Hwf Hids Hruns Hdef Hrun Hfail.
  unfold ensureSVGSymbols. unfold needed, referenced in Hids.
  unfold wellFormed in Hwf.
  destruct (querySelectorAll E "use" clone) as [|use uses] eqn:Huses.
  { simpl in Hids. by destruct before. }
  change (List.length (use :: uses) =? 0)%nat with false. cbv iota.
  rewrite andThen_run.
  rewrite (collectDefs_failed E cloneNode_rec clone (use :: uses) [] w
             before id after clones w1 definition o w2) by done.
  by destruct o as [[c|]|r|].
Qed.


(** ** References that are not selectors *)



(** ** Circular references *)

Lemma selfUse_clone name rec isRoot w :
  cloneNode_body (Demo.env [Samples.selfSymbol name]) Demo.noOptions rec
    (Samples.selfUse name) isRoot w
  = (Done (Some (Samples.selfUse name)), w).
Proof. destruct isRoot; reflexivity. Qed.

Lemma selfSymbol_needed name :
  needed (Demo.env [Samples.selfSymbol name]) (Samples.selfSymbol name)
  = [String "#" name]
  ∧ documentQuerySelector (Demo.env [Samples.selfSymbol name]) (String "#" name)
    = Some (Samples.selfSymbol name).
Proof.
  assert (Hdoc : documentQuerySelector (Demo.env [Samples.selfSymbol name])
                   (String "#" name) = Some (Samples.selfSymbol name)).
  { unfold documentQuerySelector. simpl.
    rewrite filter_cons_True; [done|]. simpl. by rewrite bool_decide_true. }
  split; [|done].
  unfold needed, referenced, querySelectorAll. simpl.
  assert (missing (Demo.env [Samples.selfSymbol name]) (Samples.selfSymbol name)
            (String "#" name) = true) as ->.
  { apply missing_true. split_and!; [done| |by rewrite Hdoc].
    unfold querySelector, querySelectorAll. simpl. reflexivity. }
  simpl. done.
Qed.

Lemma selfSymbol_wellFormed name :
  Demo.isIdentifier name = true →
  wellFormed (Demo.env [Samples.selfSymbol name]) (Samples.selfSymbol name).
Proof.
  intros Hname. unfold wellFormed, querySelectorAll. simpl.
  constructor; [|constructor]. unfold parses. simpl. exact Hname.
Qed.

Lemma selfSymbol_body name rec isRoot w :
  Demo.isIdentifier name = true →
  (rec (Samples.selfUse name) false w = (Done (Some (Samples.selfUse name)), w)
   ∨ (rec (Samples.selfUse name) false w).1 = Pending) →
  (∀ w', (rec (Samples.selfSymbol name) true w').1 = Pending) →
  (cloneNode_body (Demo.env [Samples.selfSymbol name]) Demo.noOptions rec
     (Samples.selfSymbol name) isRoot w).1 = Pending.
Proof.
  intros Hname Huse Hloop.
  unfold cloneNode_body. rewrite andThen_run.
  assert (excluded Demo.noOptions (Samples.selfSymbol name) isRoot w = (Done false, w))
    as -> by (by destruct isRoot).
  cbv iota. change (negb (isSupportedElement (Samples.selfSymbol name))) with false.
  cbv iota. rewrite andThen_run.
  change (cloneSingleElement _ rec (Samples.selfSymbol name) w)
    with (Done (shallowClone (Samples.selfSymbol name)), w).
  cbv iota. rewrite andThen_run.
  rewrite (cloneChildren_fold _ _ _ [Samples.selfUse name]) by done.
  simpl foldl. rewrite cloneChildStep_run. simpl.
  destruct Huse as [Huse|Huse].
  2:{ destruct (rec (Samples.selfUse name) false w) as [[?|?|] ?]; simpl in *; done. }
  rewrite Huse. simpl.
  rewrite andThen_run.
  destruct (selfSymbol_needed name) as [Hneeded Hdoc].
  pose proof (Hloop w) as Hpending.
  destruct (rec (Samples.selfSymbol name) true w) as [o w2] eqn:Hrun.
  simpl in Hpending. subst o.
  change (Element _ [Samples.selfUse name] None FrameNull [])
    with (Samples.selfSymbol name).
  change (decorate _ _ _ _ w) with (Done (Samples.selfSymbol name), w).
  cbv beta iota. rewrite andThen_run.
  rewrite (ensureSVGSymbols_failed_definition _ rec
             (Samples.selfSymbol name) w [] (String "#" name) [] [] w
             (Samples.selfSymbol name) Pending w2);
    [done|by apply selfSymbol_wellFormed|done|constructor|done|done|done].
Qed.

(** X12: the recursion through symbol definitions need not end.  For a
    symbol of the document whose id is an identifier and whose content
    holds a [<use>] that references the symbol itself, [cloneNode] is
    still pending after any number of steps, as a root or as a child, in
    any world: the clone of the symbol lacks the definition (the search
    looks below the clone, not at it), so the symbol is cloned again,
    and so on. *)
Theorem cloneNode_never_settles_on_a_circular_reference
    (name : string) (fuel : nat) (isRoot : bool) (w : World) :
  Demo.isIdentifier name = true →
  (cloneNode (Demo.env [Samples.selfSymbol name]) Demo.noOptions fuel
     (Samples.selfSymbol name) isRoot w).1 = Pending.
Proof.
  intros Hname.
  revert isRoot w. induction fuel as [|fuel IH]; intros isRoot w; [done|].
  simpl. apply selfSymbol_body; [done| |by intros w'; apply IH].
  destruct fuel as [|fuel]; [by right|]. left. simpl. apply selfUse_clone.
Qed.

(** ** Decoration: when it fails *)

Lemma scrollChild_None E nativeNode child :
  isSupportedElement child = true →
  scrollChild E nativeNode child = None
  ↔ styleOf child = None
    ∨ ∃ st, styleOf child = Some st
            ∧ parseMatrix E (getPropertyValue "transform" st) = None.
Proof.
  intros Hel. unfold scrollChild.
  destruct child as [s|d cs sr fr an]; [done|]. simpl.
  destruct (styleOf (Element d cs sr fr an)) as [st|]; simpl.
  - destruct (parseMatrix E (getPropertyValue "transform" st)) eqn:Hp; simpl.
    + split; [done|]. intros [?|(st' & [= <-] & ?)]; congruence.
    + split; [|done]. intros _. right. eauto.
  - split; [|done]. by left.
Qed.

(** X14: [cloneScrollPosition] throws exactly when the original is
    scrolled and some child element of the clone has no [style] or a
    [transform] that [DOMMatrix] cannot parse; text nodes never make it
    throw, and neither does anything on an original that is not
    scrolled. *)
Theorem cloneScrollPosition_fails_exactly_on_an_unreadable_child
    (E : Env) (nativeNode clonedNode : Node) :
  cloneScrollPosition E nativeNode clonedNode = None
  ↔ isScrolled nativeNode = true
    ∧ ∃ child : Node,
        child ∈ childNodes clonedNode
        ∧ isSupportedElement child = true
        ∧ (styleOf child = None
           ∨ ∃ st, styleOf child = Some st
                   ∧ parseMatrix E (getPropertyValue "transform" st) = None).
Proof.
  unfold cloneScrollPosition.
  destruct (isScrolled nativeNode); simpl.
  2:{ split; [done|]. by intros [? _]. }
  destruct clonedNode as [s|d cs sr fr an]; simpl.
  { split; [done|]. intros (_ & child & Hin & _). by apply elem_of_nil in Hin. }
  destruct (mapM _ cs) as [patched|] eqn:Hm; simpl.
  - split; [done|]. intros (_ & child & Hin & Hel & Hbad). exfalso.
    assert (is_Some (mapM (fun child =>
              if isSupportedElement child then scrollChild E nativeNode child
              else Some child) cs)) as Hsome by (rewrite Hm; eauto).
    apply mapM_is_Some_1 in Hsome.
    rewrite list.Forall_forall in Hsome. specialize (Hsome child Hin).
    simpl in Hsome. rewrite Hel in Hsome.
    apply (scrollChild_None E nativeNode child Hel) in Hbad.
    rewrite Hbad in Hsome. by destruct Hsome.
  - split; [|done]. intros _. split; [done|].
    apply mapM_None_1 in Hm. apply list.Exists_exists in Hm as (child & Hin & Hbad).
    exists child. split; [done|].
    destruct (isSupportedElement child) eqn:Hel; [|done].
    split; [done|]. by apply (scrollChild_None E nativeNode child Hel).
Qed.

(** X15: [decorate] awaits nothing: the world is as before and the
    outcome is settled.  When the original or the clone is not an HTML
    element (an SVG element, say) the result is just the clone with its
    style copied: no form value, pseudo-element or scroll position is
    handled.  It can only be rejected when [patchScroll] is set, both
    nodes are HTML elements and the original is scrolled. *)
Theorem decorate_is_synchronous_and_fails_only_when_patching
    (E : Env) (options : Options) (nativeNode clonedNode : Node) (w : World) :
  let run := decorate E options nativeNode clonedNode w in
  (* no collaborator is awaited, no time passes *)
  run.2 = w
  ∧ run.1 ≠ Pending
  (* outside HTML only the style is copied *)
  ∧ (isInstanceOfHTMLElement nativeNode = false
     ∨ isInstanceOfHTMLElement clonedNode = false →
     run.1 = Done (cloneCSSStyle E nativeNode clonedNode))
  (* the only step that can throw is the scroll patch *)
  ∧ (∀ reason, run.1 = Rejected reason →
       Options.patchScroll options = true
       ∧ isInstanceOfHTMLElement nativeNode = true
       ∧ isInstanceOfHTMLElement clonedNode = true
       ∧ isScrolled nativeNode = true).
Proof.
  intros run. subst run. unfold decorate.
  assert (Hhtml : isInstanceOfHTMLElement (cloneCSSStyle E nativeNode clonedNode)
                  = isInstanceOfHTMLElement clonedNode).
  { destruct (cloneCSSStyle_only_style E nativeNode clonedNode) as [st ->].
    by destruct clonedNode. }
  rewrite Hhtml.
  destruct (isInstanceOfHTMLElement nativeNode) eqn:Hn; simpl;
    [|by split_and!].
  destruct (isInstanceOfHTMLElement clonedNode) eqn:Hc; simpl;
    [|split_and!; try done].
  destruct (Options.patchScroll options) eqn:Hp;
    [|split_and!; try done; by intros [?|?]].
  destruct (cloneScrollPosition E nativeNode _) as [patched|] eqn:Hs; simpl;
    [split_and!; try done; by intros [?|?]|].
  split_and!; try done.
  - by intros [?|?].
  - intros reason _. split_and!; try done.
    unfold cloneScrollPosition in Hs.
    destruct (isScrolled nativeNode); [done|]. simpl in Hs. done.
Qed.

(** ** The embedders: failures *)

Lemma targets_nil node :
  targets node = []
  ↔ target "background" "background-image" node = None
    ∧ target "mask" "mask-image" node = None.
Proof.
  unfold targets.
  destruct (target "background" "background-image" node),
           (target "mask" "mask-image" node); simpl; naive_solver.
Qed.

(** X16: how [embedBackground] fails.  With no target it returns the node
    as it is and calls nothing.  When the rewriter fails on the
    background target, the run is rejected right after that one call:
    nothing is written and the mask is not looked at.  When it fails on
    the mask target, the background has been rewritten already.  As
    the rewriter settles, so does the run; it calls the rewriter at most
    twice and never writes more properties than it made calls. *)
Theorem embedBackground_failure_short_circuits (E : Env) (node : Node) (w : World) :
  (* nothing to rewrite: nothing happens *)
  (targets node = [] → embedBackground E node w = (Done node, w))
  (* the background fails: the mask is not even looked at *)
  ∧ (∀ name lat,
       target "background" "background-image" node = Some name →
       embedResources E (propertyValueOf name node) = (lat, None) →
       embedBackground E node w
       = (Rejected "ResourceFetchError",
          mkWorld (clock w + lat)
            (events w ++ [EvRewriteCss (propertyValueOf name node)])))
  (* the mask fails: the background is already rewritten, the mask is not *)
  ∧ (∀ node1 w1 name lat,
       embedPair E "background" "background-image" node w = (Done node1, w1) →
       target "mask" "mask-image" node1 = Some name →
       embedResources E (propertyValueOf name node1) = (lat, None) →
       embedBackground E node w
       = (Rejected "ResourceFetchError",
          mkWorld (clock w1 + lat)
            (events w1 ++ [EvRewriteCss (propertyValueOf name node1)])))
  (* it always settles, after at most two calls of the rewriter *)
  ∧ (embedBackground E node w).1 ≠ Pending
  ∧ ∃ delta,
      events (embedBackground E node w).2 = events w ++ delta
      ∧ (List.length (rewrittenValues delta) ≤ 2)%nat
      ∧ (List.length (writtenProperties delta)
         ≤ List.length (rewrittenValues delta))%nat.
Proof.
  rewrite embedBackground_pairs, andThen_run.
  split_and!.
  - intros [Hb Hm]%targets_nil.
    rewrite embedPair_run, Hb. rewrite embedPair_run, Hm. done.
  - intros name lat Hb He. rewrite embedPair_run, Hb. cbv zeta. by rewrite He.
  - intros node1 w1 name lat Hfirst Hm He. rewrite Hfirst.
    rewrite embedPair_run, Hm. cbv zeta. by rewrite He.
  - rewrite embedPair_run.
    destruct (target "background" "background-image" node) as [b|]; cbv zeta.
    + destruct (embedResources E (propertyValueOf b node)) as [lat [css|]]; [|done].
      rewrite embedPair_run.
      destruct (target "mask" "mask-image" _) as [m|]; cbv zeta; [|done].
      by destruct (embedResources E _) as [lat' [css'|]].
    + rewrite embedPair_run.
      destruct (target "mask" "mask-image" _) as [m|]; cbv zeta; [|done].
      by destruct (embedResources E _) as [lat' [css'|]].
  - rewrite embedPair_run.
    destruct (target "background" "background-image" node) as [b|]; cbv zeta.
    + destruct (embedResources E (propertyValueOf b node)) as [lat [css|]].
      * rewrite embedPair_run.
        destruct (target "mask" "mask-image" _) as [m|]; cbv zeta.
        -- destruct (embedResources E _) as [lat' [css'|]]; simpl;
             eexists; (split; [by rewrite <- (assoc_L (++))|]); simpl; lia.
        -- simpl. eexists. split; [done|]. simpl. lia.
      * simpl. eexists. split; [done|]. simpl. lia.
    + rewrite embedPair_run.
      destruct (target "mask" "mask-image" _) as [m|]; cbv zeta.
      * destruct (embedResources E _) as [lat' [css'|]]; simpl;
          eexists; (split; [done|]); simpl; lia.
      * exists []. rewrite app_nil_r. simpl. split; [done|lia].
Qed.

(** X17: how [embedImageNode] settles on a node that needs embedding.
    When the resolver fails, the run is rejected after that call alone:
    no load is awaited.  When the resolver answers, the run is rejected
    if the browser fires [error] and never settles if it fires nothing
    (there is no timeout); it resolves only if [load] fired, and then
    with the node whose source was swapped.  An image that was [lazy] is
    made [eager]; any other [loading] value is kept. *)
Theorem embedImageNode_settles_through_the_load_events
    (E : Env) (node : Node) (w : World) :
  needsEmbedding E node →
  let url := sourceOf node in
  let mime := getMimeType E url in
  let swapped dataURL :=
    withData (swapSource (isInstanceOf node HTMLImageElement) dataURL) node in
  (* the resolver fails: the source is not swapped, no load is awaited *)
  (∀ lat, resourceToDataURL E url mime = (lat, None) →
     embedImageNode E node w
     = (Rejected "ResourceFetchError",
        mkWorld (clock w + lat) (events w ++ [EvResource url mime])))
  (* the browser fires error: rejected; it fires nothing: never settled *)
  ∧ (∀ lat dataURL lat',
       resourceToDataURL E url mime = (lat, Some dataURL) →
       (imageLoad E (swapped dataURL) = (lat', ErrorFired) →
        ∃ reason, (embedImageNode E node w).1 = Rejected reason)
       ∧ (imageLoad E (swapped dataURL) = (lat', NothingFired) →
          (embedImageNode E node w).1 = Pending))
  (* it resolves only with the swapped node, after load fired *)
  ∧ (∀ node' w',
       embedImageNode E node w = (Done node', w') →
       ∃ lat dataURL,
         resourceToDataURL E url mime = (lat, Some dataURL)
         ∧ (imageLoad E (swapped dataURL)).2 = LoadFired
         ∧ node' = swapped dataURL)
  (* a lazy image is made eager before the source is swapped in *)
  ∧ (∀ dataURL,
       loading <$> data (swapped dataURL)
       = (fun d => if String.eqb (loading d) "lazy" then "eager" else loading d)
           <$> data node).
Proof.
  intros Hneed url mime swapped.
  assert (Hel : ∃ d cs sr fr an, node = Element d cs sr fr an).
  { destruct node as [|d cs sr fr an]; [by destruct Hneed as [[? _]|[? _]]|].
    by repeat eexists. }
  destruct Hel as (d & cs & sr & fr & an & Hnode).
  split_and!.
  - intros lat Hres. rewrite embedImageNode_go by done.
    rewrite andThen_run. unfold Embed.resourceToDataURLOf.
    fold url. fold mime. by rewrite Hres, external_run.
  - intros lat dataURL lat' Hres.
    assert (Hrun : embedImageNode E node w
                   = awaitLoad E dataURL (swapped dataURL)
                       (mkWorld (clock w + lat) (events w ++ [EvResource url mime]))).
    { rewrite embedImageNode_go by done.
      rewrite andThen_run. unfold Embed.resourceToDataURLOf.
      fold url. fold mime. by rewrite Hres, external_run. }
    rewrite Hrun. unfold awaitLoad. split.
    + intros ->. simpl. subst swapped. simpl. rewrite Hnode. simpl. eauto.
    + intros ->. done.
  - intros node' w' Hdone. rewrite embedImageNode_go in Hdone by done.
    rewrite andThen_run in Hdone. unfold Embed.resourceToDataURLOf in Hdone.
    fold url in Hdone. fold mime in Hdone.
    destruct (resourceToDataURL E url mime) as [lat [dataURL|]] eqn:Hres;
      rewrite external_run in Hdone; [|done].
    exists lat, dataURL. split; [done|].
    fold (swapped dataURL) in Hdone.
    pose proof (awaitLoad_done _ _ _ _ _ _ Hdone) as ->. split; [|done].
    unfold awaitLoad in Hdone.
    destruct ((imageLoad E (swapped dataURL)).2) eqn:Hsig; [done| |done].
    subst swapped. rewrite Hnode in Hdone. simpl in Hdone. done.
  - intros dataURL. subst swapped. rewrite Hnode. done.
Qed.

(** ** Symbols: a second pass *)

Lemma descendants_Element d cs sr fr an :
  descendants (Element d cs sr fr an) = flat_map subtree cs.
Proof.
  simpl. induction cs as [|c cs IH]; [done|]. simpl. by rewrite IH.
Qed.

Lemma descendants_appendChild parent child :
  isSupportedElement parent = true →
  descendants (appendChild parent child)
  = descendants parent ++ subtree child.
Proof.
  destruct parent as [|d cs sr fr an]; [done|]. intros _.
  unfold appendChild. simpl withChildNodes.
  rewrite !descendants_Element, flat_map_app. simpl. by rewrite app_nil_r.
Qed.

Lemma descendants_foldl_appendChild parent l :
  isSupportedElement parent = true →
  descendants (foldl appendChild parent l)
  = descendants parent ++ flat_map subtree l.
Proof.
  intros Hel. rewrite foldl_appendChild_withChildNodes.
  destruct parent as [|d cs sr fr an]; [done|]. simpl withChildNodes.
  by rewrite !descendants_Element, flat_map_app.
Qed.

Lemma DefinitionsCloned_each E rec ids w clones w' :
  DefinitionsCloned E rec ids w clones w' →
  Forall2 (fun id c => ∃ definition wa wb,
             documentQuerySelector E id = Some definition
             ∧ rec definition true wa = (Done (Some c), wb)) ids clones.
Proof. induction 1; constructor; eauto. Qed.

Lemma List_filter_nil {A} (f : A → bool) l :
  (∀ x, x ∈ l → f x = false) → List.filter f l = [].
Proof.
  induction l as [|x l IH]; intros Hall; [done|]. simpl.
  rewrite (Hall x) by apply list_elem_of_here.
  apply IH. intros y Hy. apply Hall. by apply elem_of_cons; right.
Qed.

Lemma querySelector_None E selector root :
  querySelector E selector root = None
  ↔ ∀ n, n ∈ descendants root → selectorMatches E selector n = false.
Proof.
  unfold querySelector, querySelectorAll. split.
  - intros Hhead n Hin.
    destruct (selectorMatches E selector n) eqn:Hm; [|done].
    assert (n ∈ filter (fun n => selectorMatches E selector n = true)
                  (descendants root)) as Hf by (by apply list_elem_of_filter).
    destruct (filter _ (descendants root)); [by apply elem_of_nil in Hf|done].
  - intros Hall.
    destruct (filter _ (descendants root)) as [|n l] eqn:Hf; [done|].
    assert (n ∈ filter (fun n => selectorMatches E selector n = true)
                  (descendants root)) as Hin by (rewrite Hf; apply list_elem_of_here).
    apply list_elem_of_filter in Hin as [Hm Hin]. rewrite (Hall n Hin) in Hm. done.
Qed.

(** X13: a second pass of [ensureSVGSymbols] over its own result clones
    nothing and returns it as it is, in the same world, provided that
    the clone of each needed definition is matched by the selector that
    found the definition and holds no [<use>] element, and that the
    added container and its [defs] element are not matched by [use]. *)
Theorem ensureSVGSymbols_second_pass_changes_nothing
    (E : Env) (cloneNode_rec cloneNode_rec' : Node → bool → Promise (option Node))
    (clone clone' : Node) (w w' w2 : World) :
  (* the clone of a needed definition is matched by the selector that
     found the definition, and holds no use element *)
  (∀ id definition c wa wb,
     id ∈ needed E clone →
     documentQuerySelector E id = Some definition →
     cloneNode_rec definition true wa = (Done (Some c), wb) →
     selectorMatches E id c = true
     ∧ ∀ n, n ∈ subtree c → selectorMatches E "use" n = false) →
  (* neither the container nor its defs element is a use element *)
  (∀ nodes,
     selectorMatches E "use" (symbolContainer nodes) = false
     ∧ selectorMatches E "use" (foldl appendChild (createElementNS "defs") nodes)
       = false) →
  ensureSVGSymbols E cloneNode_rec clone w = (Done clone', w') →
  ensureSVGSymbols E cloneNode_rec' clone' w2 = (Done clone', w2).
Proof.
  intros Hdefs Hcontainer Hrun.
  apply ensureSVGSymbols_done in Hrun as (Hwf & clones & Hruns & ->).
  cut (wellFormed E match clones with
                    | [] => clone
                    | _ :: _ => appendChild clone (symbolContainer clones)
                    end
       ∧ needed E match clones with
                  | [] => clone
                  | _ :: _ => appendChild clone (symbolContainer clones)
                  end = []).
  { intros [Hwf' Hnil]. apply ensureSVGSymbols_done. split; [done|].
    exists []. rewrite Hnil. split; [constructor|done]. }
  pose proof (DefinitionsCloned_length _ _ _ _ _ _ Hruns) as Hlen.
  destruct clones as [|c0 clones0].
  { split; [done|]. by destruct (needed E clone). }
  set (clones := c0 :: clones0) in *.
  assert (Hel : isSupportedElement clone = true).
  { destruct clone as [s|]; [|done]. by destruct (needed E (NonElement s)) eqn:Hn. }
  assert (Hdesc : descendants (appendChild clone (symbolContainer clones))
                  = descendants clone
                    ++ symbolContainer clones
                       :: foldl appendChild (createElementNS "defs") clones
                       :: flat_map subtree clones).
  { rewrite descendants_appendChild by done. unfold subtree at 1. f_equal. f_equal.
    unfold symbolContainer.
    rewrite descendants_appendChild by done.
    change (descendants _ ++ ?x) with x.
    unfold subtree at 1. f_equal.
    by rewrite descendants_foldl_appendChild. }
  pose proof (DefinitionsCloned_each _ _ _ _ _ _ Hruns) as Heach.
  assert (Hclones : ∀ c n, c ∈ clones → n ∈ subtree c →
                     selectorMatches E "use" n = false).
  { intros c n Hc Hn.
    apply list_elem_of_lookup_1 in Hc as [i Hi].
    destruct (Forall2_lookup_r _ _ _ _ _ Heach Hi)
      as (id & Hid & def & wa & wb & Hdef & Hc).
    apply list_elem_of_lookup_2 in Hid.
    by apply (Hdefs id def c wa wb Hid Hdef Hc). }
  assert (Huses : querySelectorAll E "use" (appendChild clone (symbolContainer clones))
                  = querySelectorAll E "use" clone).
  { unfold querySelectorAll. rewrite Hdesc, list.filter_app.
    rewrite filter_cons_False by (rewrite (proj1 (Hcontainer clones)); done).
    rewrite filter_cons_False by (rewrite (proj2 (Hcontainer clones)); done).
    assert (filter (fun n => selectorMatches E "use" n = true)
              (flat_map subtree clones) = []) as ->; [|by rewrite app_nil_r].
    destruct (filter _ (flat_map subtree clones)) as [|n l] eqn:Hf; [done|].
    assert (n ∈ filter (fun n => selectorMatches E "use" n = true)
                  (flat_map subtree clones)) as Hin
      by (rewrite Hf; apply list_elem_of_here).
    apply list_elem_of_filter in Hin as [Hm Hin].
    apply list_elem_of_In, in_flat_map in Hin as (c & Hc & Hn).
    rewrite (Hclones c n) in Hm; [done| |]; by apply list_elem_of_In. }
  split.
  { unfold wellFormed. rewrite Huses. exact Hwf. }
  unfold needed, referenced. rewrite Huses.
  rewrite List_filter_nil; [done|].
  intros id Hid.
  destruct (missing E (appendChild clone (symbolContainer clones)) id) eqn:Hm; [|done].
  exfalso. apply missing_true in Hm as (Hne & Hnone & Hdoc).
  rewrite querySelector_None in Hnone.
  assert (id ∈ needed E clone) as Hneeded.
  { apply needed_spec. split_and!; [done|done| |done].
    apply querySelector_None. intros n Hn. apply Hnone.
    rewrite Hdesc. apply elem_of_app. by left. }
  pose proof Hneeded as Hneeded'.
  apply list_elem_of_lookup_1 in Hneeded as [i Hi].
  destruct (Forall2_lookup_l _ _ _ _ _ Heach Hi) as (c & Hc & def & wa & wb & Hdef & Hcl).
  destruct (Hdefs id def c wa wb Hneeded' Hdef Hcl) as [Hc' _].
  rewrite Hnone in Hc'; [done|].
  rewrite Hdesc. apply elem_of_app. right.
  apply elem_of_cons; right. apply elem_of_cons; right.
  apply list_elem_of_In, in_flat_map. exists c. split.
  - apply list_elem_of_In. by eapply list_elem_of_lookup_2.
  - apply list_elem_of_In. unfold subtree. apply list_elem_of_here.
Qed.

(** * Concrete runs *)

Lemma cloneChildren_only_appends_witness :
  ∃ (cloned' : Node) (w' : World) (appended : list Node),
    cloneChildren (cloneNode (Demo.env []) Demo.noOptions 2)
      Demo.gallery (shallowClone Demo.gallery) Demo.start
    = (Done cloned', w')
    ∧ cloned' = withChildNodes (fun kept => kept ++ appended)
                  (shallowClone Demo.gallery)
    ∧ (List.length appended ≤ 3)%nat.
Proof.
  assert (∃ c w1,
            cloneChildren (cloneNode (Demo.env []) Demo.noOptions 2)
              Demo.gallery (shallowClone Demo.gallery) Demo.start
            = (Done c, w1)) as (c & w1 & Hrun)
    by (eexists _, _; vm_compute; reflexivity).
  destruct (cloneChildren_only_appends _ _ _ _ _ _ Hrun)
    as (cs & appended & Hcs & Hc & Hlen).
  injection Hcs as <-.
  exists c, w1, appended. done.
Defined.

Lemma cloneChildren_stops_at_first_failure_witness :
  cloneChildren (cloneNode (Demo.env []) Demo.noOptions 2)
    Samples.album (shallowClone Samples.album) Demo.start
  = (Rejected "SecurityError", Demo.start).
Proof.
  apply (cloneChildren_stops_at_first_failure
           (cloneNode (Demo.env []) Demo.noOptions 2)
           Samples.album (shallowClone Samples.album) Demo.start
           [Demo.text "caption"] Samples.blockedFrame [Demo.paragraph]
           [mkRun Demo.start (Some (Demo.text "caption")) Demo.start]
           Demo.start Demo.start (Rejected "SecurityError")).
  - reflexivity.
  - reflexivity.
  - econstructor; [reflexivity|constructor].
  - reflexivity.
  - intros r. discriminate.
Defined.

Lemma cloneSingleElement_collaborator_calls_witness :
  ∃ evs : list Event,
    events (cloneSingleElement (Demo.env [])
              (cloneNode (Demo.env []) Demo.noOptions 2) Demo.clip Demo.start).2
    = events Demo.start ++ evs
    ∧ resolvedUrls evs = ["clip.png"].
Proof.
  destruct (cloneSingleElement_collaborator_calls (Demo.env [])
              (cloneNode (Demo.env []) Demo.noOptions 2) Demo.clip Demo.start
              eq_refl) as (evs & Hev & Hurls & _).
  exists evs. split; [exact Hev|exact Hurls].
Defined.

Lemma video_is_cloned_without_its_children_witness :
  (clonedNode ← cloneSingleElement (Demo.env [])
                   (cloneNode (Demo.env []) Demo.noOptions 2) Demo.clip;
   cloneChildren (cloneNode (Demo.env []) Demo.noOptions 2) Demo.clip clonedNode)
    Demo.start
  = (Done (Demo.img "data:image/png;base64,clip.png"),
     mkWorld 9 [EvResource "clip.png" "image/png";
                EvCreateImage "data:image/png;base64,clip.png"]).
Proof.
  rewrite (video_is_cloned_without_its_children (Demo.env [])
             (cloneNode (Demo.env []) Demo.noOptions 2) Demo.clip Demo.start eq_refl).
  reflexivity.
Defined.

Lemma iframe_body_children_are_cloned_again_witness :
  ∃ clone : Node,
    (clonedNode ← cloneSingleElement (Demo.env [])
                     (cloneNode (Demo.env []) Demo.noOptions 3) Demo.frame;
     cloneChildren (cloneNode (Demo.env []) Demo.noOptions 3) Demo.frame clonedNode)
      Demo.start
    = (Done clone, Demo.start)
    ∧ childNodes clone = [Demo.paragraph; Demo.paragraph].
Proof.
  eexists. split.
  - apply (iframe_body_children_are_cloned_again (Demo.env [])
             (cloneNode (Demo.env []) Demo.noOptions 3)
             Demo.frame Demo.frameBody Demo.frameBody Demo.start Demo.start
             Demo.start
             [mkRun Demo.start (Some Demo.paragraph) Demo.start]).
    + reflexivity.
    + reflexivity.
    + reflexivity.
    + econstructor; [reflexivity|constructor].
  - reflexivity.
Defined.

Lemma cloneNode_rejects_when_contentDocument_throws_witness :
  cloneNode (Demo.env []) Demo.noOptions 1 Samples.blockedFrame true Demo.start
  = (Rejected "SecurityError", Demo.start).
Proof.
  by apply (cloneNode_rejects_when_contentDocument_throws (Demo.env [])
              Demo.noOptions 0).
Defined.



Lemma cloneNode_never_settles_on_a_circular_reference_witness :
  (cloneNode (Demo.env [Samples.selfSymbol "loop"]) Demo.noOptions 7
     (Samples.selfSymbol "loop") true Demo.start).1 = Pending.
Proof.
  by apply (cloneNode_never_settles_on_a_circular_reference "loop" 7 true
              Demo.start).
Defined.


Lemma ensureSVGSymbols_second_pass_changes_nothing_witness :
  ∃ (clone' : Node) (w' : World),
    ensureSVGSymbols (Demo.env [Demo.sprite])
      (cloneNode (Demo.env [Demo.sprite]) Demo.noOptions 3)
      Demo.twoUses Demo.start
    = (Done clone', w')
    ∧ List.length (childNodes clone') = 3%nat
    ∧ ensureSVGSymbols (Demo.env [Demo.sprite])
        (cloneNode (Demo.env [Demo.sprite]) Demo.noOptions 3)
        clone' w'
      = (Done clone', w').
Proof.
  assert (∃ c w1,
            ensureSVGSymbols (Demo.env [Demo.sprite])
              (cloneNode (Demo.env [Demo.sprite]) Demo.noOptions 3)
              Demo.twoUses Demo.start
            = (Done c, w1)
            ∧ List.length (childNodes c) = 3%nat) as (c & w1 & Hrun & Hlen)
    by (eexists _, _; split; vm_compute; reflexivity).
  exists c, w1. split; [exact Hrun|]. split; [exact Hlen|].
  apply (ensureSVGSymbols_second_pass_changes_nothing
           (Demo.env [Demo.sprite])
           (cloneNode (Demo.env [Demo.sprite]) Demo.noOptions 3)
           (cloneNode (Demo.env [Demo.sprite]) Demo.noOptions 3)
           Demo.twoUses c Demo.start w1 w1); [| |exact Hrun].
  - intros id definition cl wa wb Hid Hdef Hcl.
    assert (needed (Demo.env [Demo.sprite]) Demo.twoUses = ["#icon"]) as Hneeded
      by (vm_compute; reflexivity).
    rewrite Hneeded in Hid. apply list_elem_of_singleton in Hid as ->.
    assert (documentQuerySelector (Demo.env [Demo.sprite]) "#icon"
            = Some Demo.symbolIcon) as Hfound by (vm_compute; reflexivity).
    rewrite Hfound in Hdef. injection Hdef as <-.
    assert (cloneNode (Demo.env [Demo.sprite]) Demo.noOptions 3
              Demo.symbolIcon true wa = (Done (Some Demo.symbolIcon), wa)) as Hsame
      by reflexivity.
    rewrite Hsame in Hcl. injection Hcl as <- _.
    split; [reflexivity|].
    intros n Hn. unfold subtree in Hn. simpl in Hn.
    repeat (apply elem_of_cons in Hn as [->|Hn]; [reflexivity|]).
    by apply elem_of_nil in Hn.
  - intros nodes. split; [reflexivity|].
    unfold selectorMatches. simpl. unfold Demo.matchesSelector.
    rewrite bool_decide_false; [done|].
    unfold data. rewrite foldl_appendChild_withChildNodes. simpl. discriminate.
Defined.

Lemma embedImageNode_settles_through_the_load_events_witness :
  (embedImageNode Samples.stalled Demo.photo Demo.start).1 = Pending.
Proof.
  destruct (embedImageNode_settles_through_the_load_events
              Samples.stalled Demo.photo Demo.start)
    as (_ & Hload & _).
  - left. split; reflexivity.
  - destruct (Hload 7%nat "data:image/png;base64,cat.png" 0%nat eq_refl)
      as [_ Hnothing].
    by apply Hnothing.
Defined.
